(** * ESPnetEZ/ST/integrate_huggingface.ipynb: corpus dataset and composite model

    A shallow embedding of the two classes of the notebook,
    [CustomDataset] (the Kaldi-style corpus parser) and
    [CustomFinetuneModel] (the ASR + LLM adapter), with the Python
    operations they rely on written out: [str.strip], [str.split],
    [str.replace], insertion-ordered [dict], list indexing, name lookup.

    Conventions
    - a Python [str] is a list of Unicode code points ([list N]);
    - a Python exception is a constructor of [exn]; a computation that may
      raise returns a [result];
    - methods take [self] explicitly and hand the (possibly updated) object
      back together with their result;
    - objects of the external libraries (the Kaldi loader, the pretrained
      ASR model, the tokenizer, the seq2seq model, float arithmetic) are
      parameters of the development: nothing is assumed about them. *)

From Stdlib Require Import Ascii String List NArith ZArith Lia Bool.
Import ListNotations.

Set Implicit Arguments.

(* ================================================================= *)
(** ** Exceptions and results *)

Inductive exn : Type :=
| ValueError
| KeyError
| IndexError
| NameError
| ZeroDivisionError
| FileNotFoundError
| ExternalError.   (* anything raised inside an external library *)

Inductive result (A : Type) : Type :=
| Ok (a : A)
| Raise (e : exn).

Arguments Ok {A} a.
Arguments Raise {A} e.

Definition bind {A B : Type} (r : result A) (k : A -> result B) : result B :=
  match r with
  | Ok a => k a
  | Raise e => Raise e
  end.

Notation "x <- r ;; k" := (bind r (fun x => k))
  (at level 61, r at next level, right associativity).
Notation "' p <- r ;; k" := (bind r (fun p => k))
  (at level 61, p pattern, r at next level, right associativity).

(* ================================================================= *)
(** ** Python strings *)

Definition char := N.
Definition str := list char.

Definition str_eq_dec : forall a b : str, {a = b} + {a <> b} :=
  list_eq_dec N.eq_dec.

Definition str_eqb (a b : str) : bool :=
  if str_eq_dec a b then true else false.

(** An ASCII literal as a Python string. *)
Fixpoint py (s : string) : str :=
  match s with
  | EmptyString => []
  | String c s' => N_of_ascii c :: py s'
  end.

(** [str.isspace] on one code point: CPython's [_PyUnicode_IsWhitespace]. *)
Definition isspace (c : char) : bool :=
  ((9 <=? c) && (c <=? 13)           (* \t \n \v \f \r *)
   || (28 <=? c) && (c <=? 32)       (* FS GS RS US and the space *)
   || (c =? 133) || (c =? 160)       (* NEL, no-break space *)
   || (c =? 5760)
   || (8192 <=? c) && (c <=? 8202)
   || (c =? 8232) || (c =? 8233)
   || (c =? 8239) || (c =? 8287) || (c =? 12288))%N.

Definition SP : char := 32%N.
Definition NL : char := 10%N.

(** [s.lstrip()], [s.rstrip()], [s.strip()] with no argument. *)
Fixpoint lstrip (s : str) : str :=
  match s with
  | [] => []
  | c :: s' => if isspace c then lstrip s' else s
  end.

Definition rstrip (s : str) : str := rev (lstrip (rev s)).

Definition strip (s : str) : str := rstrip (lstrip s).

(** The maximal run of non-whitespace characters at the head of [s], and
    what follows it. *)
Fixpoint span_word (s : str) : str * str :=
  match s with
  | [] => ([], [])
  | c :: s' =>
      if isspace c then ([], s)
      else let (w, r) := span_word s' in (c :: w, r)
  end.

(** [s.split(None, maxsplit)]: fields separated by runs of whitespace.
    [maxsplit = None] is Python's [-1] (no limit).  Once [maxsplit]
    splits are done the rest of the string, less its leading whitespace,
    is the last field if it is not empty.  [fuel] bounds the number of
    fields; [split] gives enough of it. *)
Fixpoint split_fuel (fuel : nat) (maxsplit : option nat) (s : str) : list str :=
  match fuel with
  | O => []
  | S fuel' =>
      match lstrip s with
      | [] => []
      | c :: r =>
          match maxsplit with
          | Some O => [c :: r]
          | _ =>
              let (w, rest) := span_word (c :: r) in
              w :: split_fuel fuel' (option_map pred maxsplit) rest
          end
      end
  end.

Definition split (maxsplit : option nat) (s : str) : list str :=
  split_fuel (S (length s)) maxsplit s.

(** [strip_prefix p s] is [Some r] when [s = p ++ r]. *)
Fixpoint strip_prefix (p s : str) : option str :=
  match p, s with
  | [], _ => Some s
  | _ :: _, [] => None
  | a :: p', b :: s' => if (a =? b)%N then strip_prefix p' s' else None
  end.

(** [s.replace(old, new)]: every occurrence of [old], found left to right
    and not overlapping, becomes [new].  With an empty [old] Python puts
    [new] before every character and at the end. *)
Fixpoint replace_fuel (fuel : nat) (old new s : str) : str :=
  match fuel with
  | O => s
  | S fuel' =>
      match s with
      | [] => []
      | c :: s' =>
          match strip_prefix old s with
          | Some rest => new ++ replace_fuel fuel' old new rest
          | None => c :: replace_fuel fuel' old new s'
          end
      end
  end.

Definition replace (old new s : str) : str :=
  match old with
  | [] => flat_map (fun c => new ++ [c]) s ++ new
  | _ :: _ => replace_fuel (length s) old new s
  end.

(** [f.readlines()] on the text of a file: the lines, each with its
    closing newline when it has one. *)
Fixpoint readlines_acc (cur : str) (s : str) : list str :=
  match s with
  | [] => match cur with [] => [] | _ => [rev cur] end
  | c :: s' =>
      if (c =? NL)%N then rev (c :: cur) :: readlines_acc [] s'
      else readlines_acc (c :: cur) s'
  end.

Definition readlines (s : str) : list str := readlines_acc [] s.

(* ================================================================= *)
(** ** CustomDataset *)

(** The three escapes the loader decodes, each with the space before it,
    and what they become. *)
Definition esc_apos : str := py " &apos;".
Definition esc_quot : str := py " &quot;".
Definition esc_amp  : str := py " &amp;".
Definition apostrophe : str := [39%N].
Definition dquote     : str := [34%N].
Definition ampersand  : str := [38%N].

(** The chain of three [replace] calls applied to both the translation
    and the transcript: first the apostrophe escape, then the double
    quote, then the ampersand. *)
Definition decode (x : str) : str :=
  replace esc_amp ampersand
    (replace esc_quot dquote
       (replace esc_apos apostrophe x)).

(** [audio_id, x = line.strip().split(maxsplit=1)]: unpacking a list that
    does not have exactly two elements raises [ValueError]. *)
Definition unpack2 (l : list str) : result (str * str) :=
  match l with
  | [a; b] => Ok (a, b)
  | _ => Raise ValueError
  end.

Definition split_line (line : str) : result (str * str) :=
  unpack2 (split (Some 1%nat) (strip line)).

(** One iteration of either loop up to the dictionary update: the
    identifier and the decoded text of the line. *)
Definition parse_line (line : str) : result (str * str) :=
  '(audio_id, x) <- split_line line ;;
  Ok (audio_id, decode x).

(** The inner dictionary kept for one identifier.  The first loop creates
    it with the single key ['translated']; the second loop adds the key
    ['text'], so that key may be absent. *)
Record Entry : Type := {
  translated : str;
  text : option str
}.

(** [self.data]: a Python [dict] keeps its keys in insertion order, and
    assigning to a key that is present keeps the key where it is. *)
Definition Dict := list (str * Entry).

Fixpoint dict_get (d : Dict) (k : str) : option Entry :=
  match d with
  | [] => None
  | (k', v) :: d' => if str_eqb k' k then Some v else dict_get d' k
  end.

Fixpoint dict_set (d : Dict) (k : str) (v : Entry) : Dict :=
  match d with
  | [] => [(k, v)]
  | (k', v') :: d' =>
      if str_eqb k' k then (k', v) :: d' else (k', v') :: dict_set d' k v
  end.

Definition dict_keys (d : Dict) : list str := map fst d.

(** [l[idx]] on a Python list: a negative index counts from the end, an
    index out of range raises [IndexError]. *)
Definition list_index {A : Type} (l : list A) (idx : Z) : result A :=
  let n := Z.of_nat (List.length l) in
  let i := if (idx <? 0)%Z then (idx + n)%Z else idx in
  if ((0 <=? i) && (i <? n))%Z then
    match nth_error l (Z.to_nat i) with
    | Some a => Ok a
    | None => Raise IndexError
    end
  else Raise IndexError.

(** The files the loader reads: a path has a content or does not exist. *)
Definition FS := str -> option str.

Definition open (fs : FS) (path : str) : result str :=
  match fs path with
  | Some content => Ok content
  | None => Raise FileNotFoundError
  end.

(** First loop of [__init__], over the lines of [text.tc.de]. *)
Fixpoint load_translated (lines : list str) (data : Dict) : result Dict :=
  match lines with
  | [] => Ok data
  | line :: rest =>
      '(audio_id, tr) <- parse_line line ;;
      load_translated rest
        (dict_set data audio_id {| translated := tr; text := None |})
  end.

(** Second loop of [__init__], over the lines of [text]:
    [self.data[audio_id]['text'] = text] needs [audio_id] in [self.data]. *)
Fixpoint load_text (lines : list str) (data : Dict) : result Dict :=
  match lines with
  | [] => Ok data
  | line :: rest =>
      '(audio_id, tx) <- parse_line line ;;
      match dict_get data audio_id with
      | None => Raise KeyError
      | Some e =>
          load_text rest
            (dict_set data audio_id
               {| translated := translated e; text := Some tx |})
      end
  end.

Definition split_dir (data_path : str) (is_train : bool) : str :=
  if is_train then data_path ++ py "/train.en-de_sp"
  else data_path ++ py "/dev.en-de".

Definition text_tc_de_path (data_path : str) (is_train : bool) : str :=
  split_dir data_path is_train ++ py "/text.tc.de".

Definition text_path (data_path : str) (is_train : bool) : str :=
  split_dir data_path is_train ++ py "/text".

Definition wav_scp_path (data_path : str) (is_train : bool) : str :=
  split_dir data_path is_train ++ py "/wav.scp".

(** The Kaldi loader of espnet2 and the numpy arrays it yields:
    [kaldi_loader(path)], [loader[key]] and [array.astype(np.float32)]. *)
Class KaldiIO : Type := {
  Loader : Type;
  Array : Type;
  kaldi_loader : str -> result Loader;
  loader_getitem : Loader -> str -> result Array;
  astype_float32 : Array -> result Array
}.

Section Dataset.

Context {io : KaldiIO}.

Record CustomDataset : Type := {
  data_path : str;
  data : Dict;
  keys : list str;
  loader : Loader
}.

Definition CustomDataset_init (fs : FS) (path : str) (is_train : bool)
  : result CustomDataset :=
  f <- open fs (text_tc_de_path path is_train) ;;
  d1 <- load_translated (readlines f) [] ;;
  f <- open fs (text_path path is_train) ;;
  d2 <- load_text (readlines f) d1 ;;
  ld <- kaldi_loader (wav_scp_path path is_train) ;;
  Ok {| data_path := path;
        data := d2;
        keys := dict_keys d2;
        loader := ld |}.

Definition CustomDataset_len (self : CustomDataset) : CustomDataset * Z :=
  (self, Z.of_nat (List.length (keys self))).

(** The record handed to the trainer. *)
Record Item : Type := {
  item_speech : Array;
  item_text : str;
  item_translated : str
}.

Definition data_field (self : CustomDataset) (idx : Z)
    (field : Entry -> option str) : result str :=
  k <- list_index (keys self) idx ;;
  match dict_get (data self) k with
  | None => Raise KeyError
  | Some e =>
      match field e with
      | Some x => Ok x
      | None => Raise KeyError
      end
  end.

(** [idx = int(idx)] is the identity on an integer.  The three values of
    the returned dictionary are evaluated in the order they are written. *)
Definition CustomDataset_getitem (self : CustomDataset) (idx : Z)
  : CustomDataset * result Item :=
  (self,
   k <- list_index (keys self) idx ;;
   a <- loader_getitem (loader self) k ;;
   speech <- astype_float32 a ;;
   tx <- data_field self idx text ;;
   tr <- data_field self idx (fun e => Some (translated e)) ;;
   Ok {| item_speech := speech; item_text := tx; item_translated := tr |}).

(** A client of the dataset: any sequence of [len(ds)] and [ds[idx]]. *)
Inductive Access : Type :=
| CallLen
| CallGetitem (idx : Z).

Inductive Answer : Type :=
| AnsLen (n : Z)
| AnsItem (r : result Item).

Definition access (self : CustomDataset) (a : Access) : CustomDataset * Answer :=
  match a with
  | CallLen => let (s, n) := CustomDataset_len self in (s, AnsLen n)
  | CallGetitem idx =>
      let (s, r) := CustomDataset_getitem self idx in (s, AnsItem r)
  end.

Fixpoint accesses (self : CustomDataset) (l : list Access)
  : CustomDataset * list Answer :=
  match l with
  | [] => (self, [])
  | a :: l' =>
      let (s1, x) := access self a in
      let (s2, xs) := accesses s1 l' in
      (s2, x :: xs)
  end.

End Dataset.

(** The identifiers of the well-formed lines of a file, in file order, and
    how many different ones there are. *)
Definition line_ids (lines : list str) : list str :=
  flat_map (fun line =>
              match parse_line line with
              | Ok (audio_id, _) => [audio_id]
              | Raise _ => []
              end) lines.

Definition count_unique (l : list str) : nat :=
  List.length (nodup str_eq_dec l).

(** A file system given by its list of files. *)
Fixpoint files (l : list (str * str)) : FS :=
  fun path =>
    match l with
    | [] => None
    | (p, c) :: l' => if str_eqb p path then Some c else files l' path
    end.

(* ================================================================= *)
(** ** Name lookup *)

(** Where Python finds a name used in a function body: among the
    function's own variables, else among the module's globals, else among
    the builtins; a name found nowhere raises [NameError]. *)
Inductive Scope : Type := Local | Global | Builtin.

Definition mem (x : string) (l : list string) : bool :=
  existsb (String.eqb x) l.

Definition resolve (locals globals builtins : list string) (name : string)
  : result Scope :=
  if mem name locals then Ok Local
  else if mem name globals then Ok Global
  else if mem name builtins then Ok Builtin
  else Raise NameError.

Local Open Scope string_scope.

(** Parameters and assigned variables of [CustomFinetuneModel.forward]. *)
Definition forward_locals : list string :=
  ["self"; "speech"; "speech_lengths"; "text"; "text_lengths"; "kwargs";
   "asr_texts"; "target_tokens"; "lm_output"; "loss"; "_loss"].

(** Every name bound at the top level of the notebook's cells. *)
Definition notebook_globals : list string :=
  ["torch"; "nn"; "np"; "librosa"; "Path"; "create_lora_adapter";
   "AbsESPnetModel"; "kaldi_loader"; "AutoTokenizer";
   "AutoModelForSeq2SeqLM"; "ez";
   "TRAIN_KEY"; "FINETUNE_MODEL"; "HF_MODEl"; "DATA_PATH"; "DUMP_DIR";
   "EXP_DIR"; "STATS_DIR";
   "CustomDataset"; "CustomFinetuneModel";
   "lm_tokenizer"; "data_info"; "count_parameters"; "build_model_fn";
   "Speech2Text"; "pretrained_model"; "training_config"; "finetune_config";
   "train_dataset"; "dev_dataset"; "trainer"].

(** The names of Python's [builtins] module. *)
Definition python_builtins : list string :=
  ["ArithmeticError"; "AssertionError"; "AttributeError"; "BaseException";
   "BaseExceptionGroup"; "BlockingIOError"; "BrokenPipeError"; "BufferError";
   "BytesWarning"; "ChildProcessError"; "ConnectionAbortedError";
   "ConnectionError"; "ConnectionRefusedError"; "ConnectionResetError";
   "DeprecationWarning"; "EOFError"; "Ellipsis"; "EncodingWarning";
   "EnvironmentError"; "Exception"; "ExceptionGroup"; "False";
   "FileExistsError"; "FileNotFoundError"; "FloatingPointError";
   "FutureWarning"; "GeneratorExit"; "IOError"; "ImportError";
   "ImportWarning"; "IndentationError"; "IndexError"; "InterruptedError";
   "IsADirectoryError"; "KeyError"; "KeyboardInterrupt"; "LookupError";
   "MemoryError"; "ModuleNotFoundError"; "NameError"; "None";
   "NotADirectoryError"; "NotImplemented"; "NotImplementedError"; "OSError";
   "OverflowError"; "PendingDeprecationWarning"; "PermissionError";
   "ProcessLookupError"; "RecursionError"; "ReferenceError";
   "ResourceWarning"; "RuntimeError"; "RuntimeWarning";
   "StopAsyncIteration"; "StopIteration"; "SyntaxError"; "SyntaxWarning";
   "SystemError"; "SystemExit"; "TabError"; "TimeoutError"; "True";
   "TypeError"; "UnboundLocalError"; "UnicodeDecodeError";
   "UnicodeEncodeError"; "UnicodeError"; "UnicodeTranslateError";
   "UnicodeWarning"; "UserWarning"; "ValueError"; "Warning";
   "ZeroDivisionError"; "__build_class__"; "__debug__"; "__doc__";
   "__import__"; "__loader__"; "__name__"; "__package__"; "__spec__";
   "abs"; "aiter"; "all"; "anext"; "any"; "ascii"; "bin"; "bool";
   "breakpoint"; "bytearray"; "bytes"; "callable"; "chr"; "classmethod";
   "compile"; "complex"; "copyright"; "credits"; "delattr"; "dict"; "dir";
   "divmod"; "enumerate"; "eval"; "exec"; "exit"; "filter"; "float";
   "format"; "frozenset"; "getattr"; "globals"; "hasattr"; "hash"; "help";
   "hex"; "id"; "input"; "int"; "isinstance"; "issubclass"; "iter"; "len";
   "license"; "list"; "locals"; "map"; "max"; "memoryview"; "min"; "next";
   "object"; "oct"; "open"; "ord"; "pow"; "print"; "property"; "quit";
   "range"; "repr"; "reversed"; "round"; "set"; "setattr"; "slice";
   "sorted"; "staticmethod"; "str"; "sum"; "super"; "tuple"; "type";
   "vars"; "zip"].

Definition lookup_in_forward (name : string) : result Scope :=
  resolve forward_locals notebook_globals python_builtins name.

Local Close Scope string_scope.

(* ================================================================= *)
(** ** CustomFinetuneModel *)

Definition FINETUNE_MODEL : str := py "pyf98/librispeech_100_e_branchformer".
Definition HF_MODEl : str := py "google-t5/t5-base".

Definition prompt : str := py "translate English to German: ".

(** Tensors and floats of the runtime (torch and Python). *)
Class Runtime : Type := {
  Device : Type;
  Wave : Type;      (* one row of a speech batch *)
  Lengths : Type;   (* speech_lengths, text_lengths *)
  Labels : Type;    (* text: the target token ids *)
  Kwargs : Type;
  Hyp : Type;       (* token, token_int, hyp of one ASR hypothesis *)
  Tokens : Type;    (* input_ids *)
  Loss : Type;      (* lm_output.loss, a scalar tensor *)
  PyObject : Type;  (* the value a resolved name stands for *)
  (* Python floats: loss.item(), +, / by an integer, and the float that
     0 and 0.0 both denote *)
  Float : Type;
  item : Loss -> Float;
  float_add : Float -> Float -> Float;
  float_div : Float -> Z -> Float;
  float_zero : Float;
  (* str.capitalize, tensor.to(device), the value found for a name *)
  capitalize : str -> str;
  to : Tokens -> Device -> result Tokens;
  value_of : Scope -> string -> PyObject
}.

(** A speech batch lives on one device and has one row per utterance;
    [speech[0]] is its first row, on the same device. *)
Record Batch {rt : Runtime} : Type := { device : Device; rows : list Wave }.
Record Row {rt : Runtime} : Type := { row_device : Device; row_wave : Wave }.

Definition batch_index0 {rt : Runtime} (speech : Batch) : result Row :=
  match rows speech with
  | [] => Raise IndexError
  | w :: _ => Ok {| row_device := device speech; row_wave := w |}
  end.

(** [torch.cuda.is_available()] and the three [from_pretrained]. *)
Class Hub {rt : Runtime} : Type := {
  cuda_is_available : bool;
  Speech2Text_from_pretrained :
    str -> Z -> Z -> str -> result (Row -> result (list (str * Hyp)));
  AutoModelForSeq2SeqLM_from_pretrained :
    str -> str -> result (Tokens -> Labels -> result Loss);
  AutoTokenizer_from_pretrained :
    str -> result (str -> result Tokens)
}.

Section Model.

Context {rt : Runtime} {hub : Hub}.

Record CustomFinetuneModel : Type := {
  log_every : Z;
  asr_model : Row -> result (list (str * Hyp));
  lm : Tokens -> Labels -> result Loss;
  lm_tokenizer : str -> result Tokens;
  log_stats_loss : Float;      (* self.log_stats['loss'] *)
  iter_count : Z
}.

Definition CustomFinetuneModel_init (nbest beam_size log_every : Z)
  : result CustomFinetuneModel :=
  let device := if cuda_is_available then py "cuda" else py "cpu" in
  asr <- Speech2Text_from_pretrained FINETUNE_MODEL nbest beam_size device ;;
  lm <- AutoModelForSeq2SeqLM_from_pretrained HF_MODEl device ;;
  tok <- AutoTokenizer_from_pretrained HF_MODEl ;;
  Ok {| log_every := log_every;
        asr_model := asr;
        lm := lm;
        lm_tokenizer := tok;
        log_stats_loss := float_zero;
        iter_count := 0 |}.

(** What [collect_feats] returns: a dictionary with two keys. *)
Record Feats : Type := { feats : Batch; feats_lengths : Lengths }.

Definition collect_feats (self : CustomFinetuneModel)
    (speech : Batch) (speech_lengths : Lengths)
    (args : list PyObject) (kwargs : Kwargs)
  : CustomFinetuneModel * Feats :=
  (self, {| feats := speech; feats_lengths := speech_lengths |}).

(** The line [print(f"[{self.iter_count}] - loss: {_loss:.3f}")] writes:
    the two values it formats. *)
Record LogLine : Type := { log_iter : Z; log_loss : Float }.

(** [forward] up to [loss = lm_output.loss]: no field is assigned. *)
Definition forward_loss (self : CustomFinetuneModel)
    (speech : Batch) (text : Labels) : result Loss :=
  r0 <- batch_index0 speech ;;
  nbest <- asr_model self r0 ;;
  best <- list_index nbest 0 ;;
  let asr_texts := fst best in
  let asr_texts := prompt ++ capitalize asr_texts in
  ids <- lm_tokenizer self asr_texts ;;
  target_tokens <- to ids (device speech) ;;
  lm self target_tokens text.

Definition set_stats (self : CustomFinetuneModel) (acc : Float) (n : Z)
  : CustomFinetuneModel :=
  {| log_every := log_every self;
     asr_model := asr_model self;
     lm := lm self;
     lm_tokenizer := lm_tokenizer self;
     log_stats_loss := acc;
     iter_count := n |}.

(** From [self.log_stats['loss'] += loss.item()] to the end of the [if]:
    the object after it, what was printed, and whether it raised
    ([%] by zero raises [ZeroDivisionError], the two updates before it
    stay made). *)
Definition forward_log (self : CustomFinetuneModel) (loss : Loss)
  : CustomFinetuneModel * list LogLine * result unit :=
  let acc := float_add (log_stats_loss self) (item loss) in
  let n := (iter_count self + 1)%Z in
  let self1 := set_stats self acc n in
  if (log_every self =? 0)%Z then (self1, [], Raise ZeroDivisionError)
  else if (n mod log_every self =? 0)%Z then
    let _loss := float_div acc (log_every self) in
    (set_stats self1 float_zero n,
     [{| log_iter := n; log_loss := _loss |}],
     Ok tt)
  else (self1, [], Ok tt).

(** [return loss, stats, None] *)
Definition forward_return (loss : Loss) : result (Loss * PyObject * unit) :=
  sc <- lookup_in_forward "stats" ;;
  Ok (loss, value_of sc "stats", tt).

Definition forward (self : CustomFinetuneModel)
    (speech : Batch) (speech_lengths : Lengths)
    (text : Labels) (text_lengths : Lengths) (kwargs : Kwargs)
  : CustomFinetuneModel * list LogLine * result (Loss * PyObject * unit) :=
  match forward_loss self speech text with
  | Raise e => (self, [], Raise e)
  | Ok loss =>
      let '(self1, out, r) := forward_log self loss in
      (self1, out, _ <- r ;; forward_return loss)
  end.

(** Successive calls of [forward] on one model; each call is given by
    its speech batch and its labels.  What each call printed is kept
    apart. *)
Fixpoint forward_calls (self : CustomFinetuneModel)
    (calls : list (Batch * Lengths * Labels * Lengths * Kwargs))
  : CustomFinetuneModel * list (list LogLine) :=
  match calls with
  | [] => (self, [])
  | (speech, sl, text, tl, kw) :: rest =>
      let '(self1, out, _) := forward self speech sl text tl kw in
      let (self2, outs) := forward_calls self1 rest in
      (self2, out :: outs)
  end.

(** The sum of floats as the accumulator computes it, from zero and
    from the left; the last [n] elements of a list; the mean of the last
    [N] losses. *)
Definition float_sum (l : list Float) : Float :=
  fold_left float_add l float_zero.

Definition recent {A : Type} (n : nat) (l : list A) : list A :=
  skipn (List.length l - n) l.

Definition windowed_mean (N : Z) (losses : list Float) : Float :=
  float_div (float_sum (recent (Z.to_nat N) losses)) N.

(** What the call number [i + 1] prints when a line is due every [N]
    calls, [losses] being the losses of the calls in order. *)
Definition expected_log (N : Z) (losses : list Float) (i : nat)
  : list LogLine :=
  let n := Z.of_nat (S i) in
  if (n mod N =? 0)%Z then
    [{| log_iter := n; log_loss := windowed_mean N (firstn (S i) losses) |}]
  else [].

End Model.

(* ================================================================= *)
(** ** Vocabulary of the statements *)

(** [has_sub old s]: [old] occurs in [s] (Python's [old in s]). *)
Fixpoint has_sub (old s : str) : bool :=
  match strip_prefix old s with
  | Some _ => true
  | None =>
      match s with
      | [] => false
      | _ :: s' => has_sub old s'
      end
  end.

(** A text the three [replace] calls have nothing to do on. *)
Definition no_spaced_escape (x : str) : bool :=
  negb (has_sub esc_apos x) && negb (has_sub esc_quot x)
  && negb (has_sub esc_amp x).

(** A non-empty string without whitespace, a string of whitespace only,
    and a non-empty string that neither starts nor ends with whitespace. *)
Definition word (s : str) : bool :=
  match s with
  | [] => false
  | _ :: _ => forallb (fun c => negb (isspace c)) s
  end.

Definition blank (s : str) : bool := forallb isspace s.

Definition trimmed (s : str) : bool :=
  match s with
  | [] => false
  | c :: _ => negb (isspace c) && negb (isspace (last s c))
  end.

Definition gap (s : str) : bool :=
  match s with
  | [] => false
  | _ :: _ => blank s
  end.

(** A line made of an identifier, whitespace, a text that the decoder
    leaves alone, and trailing whitespace (the newline, say). *)
Definition plain_line (audio_id ws x ws' : str) : bool :=
  word audio_id && gap ws && trimmed x && blank ws' && no_spaced_escape x.

(** The whitespace-separated fields of a line, all of them. *)
Definition fields (line : str) : list str := split None (strip line).

Definition malformed (line : str) : bool :=
  (List.length (fields line) <? 2)%nat.

(** The lines of a file, none when the file does not exist. *)
Definition file_lines (fs : FS) (path : str) : list str :=
  match fs path with
  | Some content => readlines content
  | None => []
  end.

Definition file_ids (fs : FS) (path : str) : list str :=
  line_ids (file_lines fs path).

(** The ['text'] stored for an identifier, when there is one. *)
Definition stored_text (d : Dict) (audio_id : str) : option str :=
  match dict_get d audio_id with
  | Some e => text e
  | None => None
  end.

Definition stored_translated (d : Dict) (audio_id : str) : option str :=
  option_map translated (dict_get d audio_id).

(** [stored] is the text part [raw] with its escapes decoded: each of the
    three escapes that has a space before it is replaced, with that space,
    by its character, and a text part with no such escape is kept. *)
Definition decoded_in (stored : option str) (raw : str) : Prop :=
  (forall a b, raw = a ++ esc_apos ++ b ->
     stored = Some (decode a ++ apostrophe ++ decode b))
  /\ (forall a b, raw = a ++ esc_quot ++ b ->
       stored = Some (decode a ++ dquote ++ decode b))
  /\ (forall a b, raw = a ++ esc_amp ++ b ->
       stored = Some (decode a ++ ampersand ++ decode b))
  /\ (no_spaced_escape raw = true -> stored = Some raw).

(* ================================================================= *)
(** ** Concrete corpora and a concrete runtime

    Small instances on which the definitions above run. *)

Module Demo.

(** A loader that knows every identifier and yields it as its array. *)
#[export] Instance io : KaldiIO := {|
  Loader := unit;
  Array := str;
  kaldi_loader := fun _ => Ok tt;
  loader_getitem := fun _ k => Ok k;
  astype_float32 := fun a => Ok a
|}.

Definition dump : str := py "./dump/raw".

(** The training split with the given [text.tc.de] and [text]. *)
Definition corpus (tc tx : str) : FS :=
  files [(text_tc_de_path dump true, tc); (text_path dump true, tx)].

Definition line (s : string) : str := py s ++ [NL].

(** The example of the specification; code point 228 is a-umlaut. *)
Definition er_ist_spaet : str := py "Er ist sp" ++ [228%N] ++ py "t.".

Definition utt1 : FS :=
  corpus (py "utt1 " ++ er_ist_spaet ++ [NL]) (line "utt1 he is late").

(** An escape right after a letter, and the same escape after a space. *)
Definition utt2_joined : FS :=
  corpus (line "utt2 es ist gut") (line "utt2 it&apos;s fine").

Definition utt2_spaced : FS :=
  corpus (line "utt2 es ist gut") (line "utt2 it &apos;s fine").

(** Two translations, one transcript. *)
Definition two_one : FS :=
  corpus (line "a x" ++ line "b y") (line "a z").

(** A transcript for an identifier that has no translation. *)
Definition stray_transcript : FS :=
  corpus (line "a x") (line "b y").

(** A transcript line with the identifier alone. *)
Definition short_line : FS :=
  corpus (line "a x") (line "a").

(** Numbers stand for waves, labels, losses and floats; the ASR model
    hears in a row the one character its wave encodes, and the loss of a
    call is its label plus that character. *)
#[export] Instance rt : Runtime := {|
  Device := bool;
  Wave := Z;
  Lengths := unit;
  Labels := Z;
  Kwargs := unit;
  Hyp := unit;
  Tokens := str;
  Loss := Z;
  PyObject := unit;
  Float := Z;
  item := fun l => l;
  float_add := Z.add;
  float_div := Z.div;
  float_zero := 0%Z;
  capitalize := fun s => s;
  to := fun t _ => Ok t;
  value_of := fun _ _ => tt
|}.

#[export] Instance hub : Hub := {|
  cuda_is_available := false;
  Speech2Text_from_pretrained :=
    fun _ _ _ _ => Ok (fun r : Row => Ok [([Z.to_N (row_wave r)], tt)]);
  AutoModelForSeq2SeqLM_from_pretrained :=
    fun _ _ =>
      Ok (fun (ids : str) (labels : Z) => Ok (labels + Z.of_N (last ids 0%N))%Z);
  AutoTokenizer_from_pretrained :=
    fun _ => Ok (fun s : str => Ok s)
|}.

Definition batch (ws : list Z) : Batch := {| device := false; rows := ws |}.

Definition call (w label : Z) : Batch * unit * Z * unit * unit :=
  (batch [w], tt, label, tt, tt).

End Demo.

(* ================================================================= *)
(** ** The rest of the notebook: [data_info], [count_parameters],
    [build_model_fn] *)

(** The module-level tokenizer called with [return_tensors = np], whose
    [input_ids] is an array with one row per sentence, and [str.upper]. *)
Class NumpyTokenizer : Type := {
  Ids : Type;
  upper : str -> str;
  np_input_ids : str -> result (list Ids)
}.

Section DataInfo.

Context {io : KaldiIO} {tok : NumpyTokenizer}.

(** The two entries of the dictionary [data_info]; each is applied to a
    record returned by [CustomDataset.__getitem__]. *)
Definition data_info_speech (d : Item) : result Array :=
  Ok (item_speech d).

Definition data_info_text (d : Item) : result Ids :=
  rows <- np_input_ids (upper (item_translated d)) ;;
  list_index rows 0.

(** An entry of [data_info] fed with [dataset[idx]], as the comment in
    [__getitem__] says it is. *)
Definition feed {A : Type} (entry : Item -> result A)
    (ds : CustomDataset) (idx : Z) : result A :=
  d <- snd (CustomDataset_getitem ds idx) ;;
  entry d.

End DataInfo.

(** A parameter of a torch module, as [count_parameters] looks at it. *)
Record Param : Type := {
  numel : nat;
  requires_grad : bool
}.

(** [sum(p.numel() for p in model.parameters() if p.requires_grad)], on
    the list that [model.parameters()] goes through. *)
Definition count_parameters (parameters : list Param) : nat :=
  list_sum (map numel (filter requires_grad parameters)).

(** [build_model_fn(args)]: [args] is not used; [nbest] and [beam_size]
    keep the defaults of the constructor. *)
Definition build_model_fn {rt : Runtime} {hub : Hub} (args : PyObject)
  : result CustomFinetuneModel :=
  CustomFinetuneModel_init 5 10 20.

(* ================================================================= *)
(** ** More vocabulary *)

(** The elements of [l] in the order of their first occurrence, those of
    [seen] left out. *)
Fixpoint first_seen (seen l : list str) : list str :=
  match l with
  | [] => []
  | x :: r =>
      if existsb (str_eqb x) seen then first_seen seen r
      else x :: first_seen (x :: seen) r
  end.

Section Runs.

Context {rt : Runtime} {hub : Hub}.

(** The losses of the calls that get as far as computing one. *)
Definition computed_losses (self : CustomFinetuneModel)
    (calls : list (Batch * Lengths * Labels * Lengths * Kwargs)) : list Loss :=
  flat_map (fun '(speech, _, text, _, _) =>
              match forward_loss self speech text with
              | Ok l => [l]
              | Raise _ => []
              end) calls.

(** The model with [losses] accumulated since its construction: the
    counter is their number and the accumulator holds those that came
    after the last printed line. *)
Definition after_losses (self : CustomFinetuneModel) (losses : list Float)
  : CustomFinetuneModel :=
  set_stats self
    (float_sum
       (recent (Z.to_nat (Z.of_nat (List.length losses) mod log_every self))
          losses))
    (Z.of_nat (List.length losses)).

(** What a call prints once [L] holds the losses computed so far, its
    own included. *)
Definition line_after (N : Z) (L : list Float) : list LogLine :=
  if (Z.of_nat (List.length L) mod N =? 0)%Z then
    [{| log_iter := Z.of_nat (List.length L);
        log_loss := float_div (float_sum (recent (Z.to_nat N) L)) N |}]
  else [].

End Runs.

(* ================================================================= *)
(** ** The loader as an object with a state *)

(** [self.loader[key]] is a call into espnet2 on an object that the
    dataset holds.  What the read returns is [loader_getitem] of the
    loader as it is when the call is made; [loader_after] is the loader
    as the read leaves it.  Nothing is assumed about either: a loader that
    its reads do not change has [loader_after ld key = ld]. *)
Class LoaderState {io : KaldiIO} : Type := {
  loader_after : Loader -> str -> Loader
}.

Section StatefulDataset.

Context {io : KaldiIO} {ls : LoaderState}.

Definition with_loader (self : CustomDataset) (ld : Loader) : CustomDataset :=
  {| data_path := data_path self;
     data := data self;
     keys := keys self;
     loader := ld |}.

(** [__getitem__] with the state of the loader handed on.  The method
    assigns no field; the loader is read once, for the first value of the
    returned dictionary, when [self.keys[idx]] exists.  The answer is the
    one of [CustomDataset_getitem]. *)
Definition getitem_stateful (self : CustomDataset) (idx : Z)
  : CustomDataset * result Item :=
  (match list_index (keys self) idx with
   | Ok k => with_loader self (loader_after (loader self) k)
   | Raise _ => self
   end,
   snd (CustomDataset_getitem self idx)).

Definition access_stateful (self : CustomDataset) (a : Access)
  : CustomDataset * Answer :=
  match a with
  | CallLen => let (s, n) := CustomDataset_len self in (s, AnsLen n)
  | CallGetitem idx =>
      let (s, r) := getitem_stateful self idx in (s, AnsItem r)
  end.

Fixpoint accesses_stateful (self : CustomDataset) (l : list Access)
  : CustomDataset * list Answer :=
  match l with
  | [] => (self, [])
  | a :: l' =>
      let (s1, x) := access_stateful self a in
      let (s2, xs) := accesses_stateful s1 l' in
      (s2, x :: xs)
  end.

End StatefulDataset.

Module Samples.

(** Escapes with a space before them in both files, and one without. *)
Definition both_spaced : FS :=
  Demo.corpus
    (Demo.line "utt0 F&amp;E" ++ Demo.line "utt2 so &apos;n Ding")
    (Demo.line "utt0 R &amp;D" ++ Demo.line "utt2 it &apos;s fine").

(** The two lines of the example of the specification among others, and
    the translation line followed by another line for [utt1]. *)
Definition utt1_among : FS :=
  Demo.corpus
    (Demo.line "utt0 Hallo" ++ py "utt1 " ++ Demo.er_ist_spaet ++ [NL]
     ++ Demo.line "utt2 Ja")
    (Demo.line "utt0 hello" ++ Demo.line "utt1 he is late"
     ++ Demo.line "utt2 yes").

Definition utt1_overridden : FS :=
  Demo.corpus
    (py "utt1 " ++ Demo.er_ist_spaet ++ [NL] ++ Demo.line "utt1 Er kommt.")
    (Demo.line "utt1 he is late").

(** The loader of [Demo.io] is not changed by its reads. *)
#[export] Instance read_only : @LoaderState Demo.io := {|
  loader_after := fun ld _ => ld
|}.

(** A loader that counts its reads and stamps each array with the number
    of reads made before it. *)
#[export] Instance counting_io : KaldiIO := {|
  Loader := nat;
  Array := str;
  kaldi_loader := fun _ => Ok 0%nat;
  loader_getitem := fun n k => Ok (k ++ [N.of_nat n]);
  astype_float32 := fun a => Ok a
|}.

#[export] Instance counting : @LoaderState counting_io := {|
  loader_after := fun n _ => S n
|}.

(** The identifier [b] twice in both files, around [a]. *)
Definition repeated : FS :=
  Demo.corpus (Demo.line "b first" ++ Demo.line "a x" ++ Demo.line "b last")
              (Demo.line "a it" ++ Demo.line "b one" ++ Demo.line "b two").

(** The corpus [Demo.two_one] with another transcript text, and with the
    files of the development split added. *)
Definition two_one_reworded : FS :=
  Demo.corpus (Demo.line "a x" ++ Demo.line "b y") (Demo.line "a other").

Definition two_one_with_dev : FS :=
  files [(text_tc_de_path Demo.dump true, Demo.line "a x" ++ Demo.line "b y");
         (text_path Demo.dump true, Demo.line "a z");
         (text_tc_de_path Demo.dump false, Demo.line "c w");
         (text_path Demo.dump false, Demo.line "c")].

(** A tokenizer that yields the code points of the sentence as its one
    row, and the upper case of ASCII letters. *)
Definition ascii_upper (c : char) : char :=
  if ((97 <=? c) && (c <=? 122))%N then (c - 32)%N else c.

#[export] Instance tok : NumpyTokenizer := {|
  Ids := str;
  upper := map ascii_upper;
  np_input_ids := fun s => Ok [s]
|}.

End Samples.

(* ================================================================= *)
(** * Properties *)

Unset Implicit Arguments.

(** ** Results *)

Lemma bind_ok {A B : Type} (r : result A) (k : A -> result B) (b : B) :
  bind r k = Ok b -> exists a, r = Ok a /\ k a = Ok b.
Proof.
  destruct r as [a | e]; simpl; intro H.
  - exists a. split; [reflexivity | exact H].
  - discriminate H.
Qed.

(** ** Strings: prefixes *)

Lemma str_eqb_refl (a : str) : str_eqb a a = true.
Proof. unfold str_eqb. destruct (str_eq_dec a a); congruence. Qed.

Lemma str_eqb_eq (a b : str) : str_eqb a b = true <-> a = b.
Proof. unfold str_eqb. destruct (str_eq_dec a b); split; congruence. Qed.

Lemma str_eqb_neq (a b : str) : str_eqb a b = false <-> a <> b.
Proof. unfold str_eqb. destruct (str_eq_dec a b); split; congruence. Qed.

Lemma strip_prefix_app (p b : str) : strip_prefix p (p ++ b) = Some b.
Proof.
  induction p as [| a p IH]; simpl.
  - reflexivity.
  - rewrite N.eqb_refl. exact IH.
Qed.

Lemma strip_prefix_some (p s r : str) :
  strip_prefix p s = Some r -> s = p ++ r.
Proof.
  revert s. induction p as [| a p IH]; intros s H.
  - simpl in H. injection H as ->. reflexivity.
  - destruct s as [| b s]; simpl in H; [discriminate |].
    destruct (N.eqb_spec a b) as [-> | _]; [| discriminate].
    simpl. f_equal. apply IH. exact H.
Qed.

Lemma strip_prefix_none_app (p a b : str) :
  strip_prefix p (a ++ b) = None -> strip_prefix p a = None.
Proof.
  intro H. destruct (strip_prefix p a) as [r |] eqn:E; [| reflexivity].
  apply strip_prefix_some in E. subst a.
  rewrite <- app_assoc, strip_prefix_app in H. discriminate.
Qed.

Lemma strip_prefix_shorter (o : char) (p s r : str) :
  strip_prefix (o :: p) s = Some r -> (List.length r < List.length s)%nat.
Proof.
  intro H. apply strip_prefix_some in H. subst s.
  rewrite length_app. simpl. lia.
Qed.

(** ** Strings: [replace] *)

Lemma replace_fuel_enough (o : char) (p new : str) :
  forall fuel s, (List.length s <= fuel)%nat ->
    replace_fuel fuel (o :: p) new s
    = replace_fuel (List.length s) (o :: p) new s.
Proof.
  induction fuel as [fuel IH] using lt_wf_ind.
  intros s Hlen. destruct s as [| c s]; [destruct fuel; reflexivity |].
  simpl in Hlen. destruct fuel as [| fuel]; [lia |].
  cbn [replace_fuel List.length].
  destruct (strip_prefix (o :: p) (c :: s)) as [rest |] eqn:E.
  - pose proof (strip_prefix_shorter _ _ _ _ E) as Hr. simpl in Hr.
    rewrite (IH fuel) by lia.
    rewrite (IH (List.length s) ltac:(lia) rest) by lia. reflexivity.
  - rewrite (IH fuel) by lia. reflexivity.
Qed.

Lemma replace_nil (o : char) (p new : str) : replace (o :: p) new [] = [].
Proof. reflexivity. Qed.

Lemma replace_cons (o : char) (p new : str) (c : char) (s : str) :
  replace (o :: p) new (c :: s)
  = match strip_prefix (o :: p) (c :: s) with
    | Some rest => new ++ replace (o :: p) new rest
    | None => c :: replace (o :: p) new s
    end.
Proof.
  unfold replace. cbn [replace_fuel List.length].
  destruct (strip_prefix (o :: p) (c :: s)) as [rest |] eqn:E.
  - pose proof (strip_prefix_shorter _ _ _ _ E) as Hr. simpl in Hr.
    rewrite replace_fuel_enough by lia. reflexivity.
  - reflexivity.
Qed.

Lemma replace_match (o : char) (p new b : str) :
  replace (o :: p) new ((o :: p) ++ b) = new ++ replace (o :: p) new b.
Proof.
  change ((o :: p) ++ b) with (o :: (p ++ b)).
  rewrite replace_cons.
  change (o :: (p ++ b)) with ((o :: p) ++ b).
  rewrite strip_prefix_app. reflexivity.
Qed.

Lemma replace_skip (o : char) (p new : str) (c : char) (s : str) :
  strip_prefix (o :: p) (c :: s) = None ->
  replace (o :: p) new (c :: s) = c :: replace (o :: p) new s.
Proof. intro H. rewrite replace_cons, H. reflexivity. Qed.

(** A match of [o :: p] that starts inside [a] cannot run over a
    character that [p] does not have. *)
Lemma match_stays_left (o c : char) (p a s rest : str) :
  ~ In c p -> a <> [] ->
  a ++ c :: s = (o :: p) ++ rest ->
  exists a', a = (o :: p) ++ a' /\ rest = a' ++ c :: s.
Proof.
  intros Hc Ha H.
  apply app_eq_app in H. destruct H as [l [[H1 H2] | [H1 H2]]].
  - exists l. split; assumption.
  - destruct l as [| c' l].
    + exists []. rewrite app_nil_r in H1. simpl in H2. subst.
      split; [symmetry; apply app_nil_r | reflexivity].
    + exfalso. simpl in H2. injection H2 as <- _.
      destruct a as [| x a]; [congruence |].
      simpl in H1. injection H1 as _ H1. apply Hc. rewrite H1.
      apply in_or_app. right. left. reflexivity.
Qed.

(** [replace] works on both sides of such a character independently. *)
Lemma replace_app_at (o c : char) (p new : str) :
  ~ In c p ->
  forall a s,
    replace (o :: p) new (a ++ c :: s)
    = replace (o :: p) new a ++ replace (o :: p) new (c :: s).
Proof.
  intros Hc a. remember (List.length a) as n eqn:Hn. revert a Hn.
  induction n as [n IH] using lt_wf_ind. intros a Hn s.
  destruct a as [| x a]; [reflexivity |].
  change ((x :: a) ++ c :: s) with (x :: (a ++ c :: s)).
  rewrite replace_cons.
  destruct (strip_prefix (o :: p) (x :: a ++ c :: s)) as [rest |] eqn:E.
  - apply strip_prefix_some in E.
    change (x :: a ++ c :: s) with ((x :: a) ++ c :: s) in E.
    apply match_stays_left in E; [| assumption | discriminate].
    destruct E as [a' [Ea Er]]. subst rest. rewrite Ea.
    rewrite replace_match.
    rewrite (IH (List.length a')) with (a := a'); [| | reflexivity].
    + rewrite app_assoc. reflexivity.
    + subst n. rewrite Ea. rewrite length_app. simpl. lia.
  - change (x :: a ++ c :: s) with ((x :: a) ++ c :: s) in E.
    apply strip_prefix_none_app in E.
    rewrite (replace_skip _ _ _ _ _ E).
    rewrite (IH (List.length a)) with (a := a); [| | reflexivity].
    + reflexivity.
    + subst n. simpl. lia.
Qed.

Lemma replace_run (o : char) (p new w s : str) :
  ~ In o w ->
  replace (o :: p) new (w ++ s) = w ++ replace (o :: p) new s.
Proof.
  induction w as [| c w IH]; intro Hw; [reflexivity |].
  simpl app. rewrite replace_skip.
  - f_equal. apply IH. intro Hin. apply Hw. right. exact Hin.
  - simpl. destruct (N.eqb_spec o c) as [-> | _]; [| reflexivity].
    exfalso. apply Hw. left. reflexivity.
Qed.

Lemma replace_char (o c : char) (p new a b : str) :
  ~ In c (o :: p) ->
  replace (o :: p) new (a ++ c :: b)
  = replace (o :: p) new a ++ c :: replace (o :: p) new b.
Proof.
  intro Hc. rewrite replace_app_at.
  - f_equal. apply replace_skip. simpl.
    destruct (N.eqb_spec o c) as [-> | _]; [| reflexivity].
    exfalso. apply Hc. left. reflexivity.
  - intro Hin. apply Hc. right. exact Hin.
Qed.

Lemma replace_self (o : char) (p new a b : str) :
  ~ In o p ->
  replace (o :: p) new (a ++ (o :: p) ++ b)
  = replace (o :: p) new a ++ new ++ replace (o :: p) new b.
Proof.
  intro Ho. change ((o :: p) ++ b) with (o :: (p ++ b)).
  rewrite replace_app_at by exact Ho.
  change (o :: (p ++ b)) with ((o :: p) ++ b).
  rewrite replace_match. reflexivity.
Qed.

Lemma replace_other (o : char) (p new m a b : str) :
  ~ In o p -> ~ In o m ->
  strip_prefix (o :: p) (o :: m ++ b) = None ->
  replace (o :: p) new (a ++ (o :: m) ++ b)
  = replace (o :: p) new a ++ (o :: m) ++ replace (o :: p) new b.
Proof.
  intros Ho Hm Hne. change ((o :: m) ++ b) with (o :: (m ++ b)).
  rewrite replace_app_at by exact Ho.
  rewrite replace_skip by exact Hne.
  rewrite replace_run by exact Hm. reflexivity.
Qed.

(** Without an occurrence of [old], [replace] changes nothing. *)
Lemma replace_absent (o : char) (p new s : str) :
  has_sub (o :: p) s = false -> replace (o :: p) new s = s.
Proof.
  induction s as [| c s IH]; intro H; [reflexivity |].
  cbn [has_sub] in H.
  destruct (strip_prefix (o :: p) (c :: s)) eqn:E; [discriminate |].
  rewrite replace_skip by exact E. f_equal. apply IH. exact H.
Qed.

(** ** The escape decoder *)

Ltac not_in := simpl; intuition (try discriminate; try lia).

(** The escapes as code points. *)
Ltac escapes :=
  change esc_apos with (32 :: [38; 97; 112; 111; 115; 59])%N in *;
  change esc_quot with (32 :: [38; 113; 117; 111; 116; 59])%N in *;
  change esc_amp with (32 :: [38; 97; 109; 112; 59])%N in *;
  change apostrophe with [39%N] in *;
  change dquote with [34%N] in *;
  change ampersand with [38%N] in *.

Lemma decode_apos (a b : str) :
  decode (a ++ esc_apos ++ b) = decode a ++ apostrophe ++ decode b.
Proof.
  unfold decode. escapes.
  rewrite replace_self by not_in.
  simpl app at 2. rewrite replace_char by not_in.
  rewrite replace_char by not_in.
  reflexivity.
Qed.

Lemma decode_quot (a b : str) :
  decode (a ++ esc_quot ++ b) = decode a ++ dquote ++ decode b.
Proof.
  unfold decode. escapes.
  rewrite replace_other by (try reflexivity; not_in).
  rewrite replace_self by not_in.
  simpl app at 2. rewrite replace_char by not_in.
  reflexivity.
Qed.

Lemma decode_amp (a b : str) :
  decode (a ++ esc_amp ++ b) = decode a ++ ampersand ++ decode b.
Proof.
  unfold decode. escapes.
  rewrite replace_other by (try reflexivity; not_in).
  rewrite replace_other by (try reflexivity; not_in).
  rewrite replace_self by not_in.
  reflexivity.
Qed.

Lemma decode_verbatim (x : str) : no_spaced_escape x = true -> decode x = x.
Proof.
  unfold no_spaced_escape, decode. intro H.
  apply andb_prop in H. destruct H as [H H3].
  apply andb_prop in H. destruct H as [H1 H2].
  apply negb_true_iff in H1, H2, H3. escapes.
  rewrite (replace_absent _ _ _ _ H1), (replace_absent _ _ _ _ H2).
  apply replace_absent. exact H3.
Qed.

(** ** The dictionary *)

Lemma dict_get_set_same (d : Dict) (k : str) (v : Entry) :
  dict_get (dict_set d k v) k = Some v.
Proof.
  induction d as [| [k' v'] d IH]; simpl.
  - rewrite str_eqb_refl. reflexivity.
  - destruct (str_eqb k' k) eqn:E; simpl; rewrite E; [reflexivity | exact IH].
Qed.

Lemma dict_get_set_other (d : Dict) (k k' : str) (v : Entry) :
  k <> k' -> dict_get (dict_set d k v) k' = dict_get d k'.
Proof.
  intro Hne. induction d as [| [k0 v0] d IH]; simpl.
  - apply str_eqb_neq in Hne. rewrite Hne. reflexivity.
  - destruct (str_eqb k0 k) eqn:E; simpl.
    + apply str_eqb_eq in E. subst k0.
      apply str_eqb_neq in Hne. rewrite Hne. reflexivity.
    + destruct (str_eqb k0 k'); [reflexivity | exact IH].
Qed.

Lemma dict_get_in_keys (d : Dict) (k : str) :
  dict_get d k <> None <-> In k (dict_keys d).
Proof.
  induction d as [| [k' v'] d IH]; simpl.
  - split; [congruence | tauto].
  - destruct (str_eqb k' k) eqn:E.
    + apply str_eqb_eq in E. split; [intros _; left; exact E | discriminate].
    + apply str_eqb_neq in E. rewrite IH. tauto.
Qed.

Lemma dict_keys_set_present (d : Dict) (k : str) (v : Entry) :
  In k (dict_keys d) -> dict_keys (dict_set d k v) = dict_keys d.
Proof.
  induction d as [| [k' v'] d IH]; simpl; intro H; [tauto |].
  destruct (str_eqb k' k) eqn:E; simpl; [reflexivity |].
  f_equal. apply IH. apply str_eqb_neq in E. tauto.
Qed.

Lemma dict_keys_set_absent (d : Dict) (k : str) (v : Entry) :
  ~ In k (dict_keys d) -> dict_keys (dict_set d k v) = dict_keys d ++ [k].
Proof.
  induction d as [| [k' v'] d IH]; simpl; intro H; [reflexivity |].
  destruct (str_eqb k' k) eqn:E; simpl.
  - apply str_eqb_eq in E. tauto.
  - f_equal. apply IH. tauto.
Qed.

Lemma dict_keys_set_in (d : Dict) (k : str) (v : Entry) (x : str) :
  In x (dict_keys (dict_set d k v)) <-> In x (dict_keys d) \/ x = k.
Proof.
  destruct (in_dec str_eq_dec k (dict_keys d)) as [Hin | Hout].
  - rewrite dict_keys_set_present by exact Hin.
    split; [tauto | intros [H | ->]; assumption].
  - rewrite dict_keys_set_absent by exact Hout.
    rewrite in_app_iff. simpl. intuition congruence.
Qed.

Lemma dict_keys_set_nodup (d : Dict) (k : str) (v : Entry) :
  NoDup (dict_keys d) -> NoDup (dict_keys (dict_set d k v)).
Proof.
  intro Hnd. destruct (in_dec str_eq_dec k (dict_keys d)) as [Hin | Hout].
  - rewrite dict_keys_set_present by exact Hin. exact Hnd.
  - rewrite dict_keys_set_absent by exact Hout.
    apply NoDup_app; [exact Hnd | repeat constructor; simpl; tauto |].
    intros x Hx [<- | []]. exact (Hout Hx).
Qed.

(** ** The two loops of [__init__] *)

Lemma split_line_raise (line : str) (e : exn) :
  split_line line = Raise e -> e = ValueError.
Proof.
  unfold split_line, unpack2.
  destruct (split (Some 1%nat) (strip line)) as [| a [| b [| c l]]];
    congruence.
Qed.

Lemma parse_line_raise (line : str) (e : exn) :
  parse_line line = Raise e -> e = ValueError.
Proof.
  unfold parse_line. destruct (split_line line) as [[i x] | e'] eqn:E; simpl.
  - discriminate.
  - intro H. injection H as <-. exact (split_line_raise _ _ E).
Qed.

Lemma parse_line_split (line audio_id x : str) :
  split_line line = Ok (audio_id, x) ->
  parse_line line = Ok (audio_id, decode x).
Proof. unfold parse_line. intros ->. reflexivity. Qed.

Lemma line_ids_cons (line : str) (rest : list str) :
  line_ids (line :: rest)
  = match parse_line line with
    | Ok (audio_id, _) => [audio_id]
    | Raise _ => []
    end ++ line_ids rest.
Proof. reflexivity. Qed.

Lemma load_translated_keys (lines : list str) :
  forall d d', load_translated lines d = Ok d' ->
    NoDup (dict_keys d) ->
    NoDup (dict_keys d')
    /\ forall k, In k (dict_keys d') <-> In k (dict_keys d) \/ In k (line_ids lines).
Proof.
  induction lines as [| line rest IH]; intros d d' H Hnd.
  - simpl in H. injection H as <-. split; [exact Hnd |]. simpl. tauto.
  - simpl in H. rewrite line_ids_cons.
    destruct (parse_line line) as [[i tr] | e]; simpl in H; [| discriminate].
    apply IH in H; [| apply dict_keys_set_nodup; exact Hnd].
    destruct H as [Hnd' Hin]. split; [exact Hnd' |].
    intro k. rewrite Hin, dict_keys_set_in. simpl. intuition congruence.
Qed.

Lemma load_text_keys (lines : list str) :
  forall d d', load_text lines d = Ok d' ->
    dict_keys d' = dict_keys d /\ incl (line_ids lines) (dict_keys d).
Proof.
  induction lines as [| line rest IH]; intros d d' H.
  - simpl in H. injection H as <-. split; [reflexivity | intros x []].
  - simpl in H. rewrite line_ids_cons.
    destruct (parse_line line) as [[i tx] | e]; simpl in H; [| discriminate].
    destruct (dict_get d i) as [en |] eqn:G; [| discriminate].
    assert (Hi : In i (dict_keys d)).
    { apply dict_get_in_keys. congruence. }
    apply IH in H. rewrite dict_keys_set_present in H by exact Hi.
    destruct H as [Hk Hincl]. split; [exact Hk |].
    intros x [<- | Hx]; [exact Hi | apply Hincl; exact Hx].
Qed.

Lemma load_text_app (l1 l2 : list str) :
  forall d, load_text (l1 ++ l2) d = bind (load_text l1 d) (load_text l2).
Proof.
  induction l1 as [| line rest IH]; intro d; [reflexivity |].
  simpl. destruct (parse_line line) as [[i tx] | e]; simpl; [| reflexivity].
  destruct (dict_get d i); [apply IH | reflexivity].
Qed.

(** Lines for other identifiers leave an entry as it is. *)
Lemma load_text_frame (lines : list str) (k : str) :
  ~ In k (line_ids lines) ->
  forall d d', load_text lines d = Ok d' -> dict_get d' k = dict_get d k.
Proof.
  induction lines as [| line rest IH]; intros Hk d d' H.
  - simpl in H. injection H as <-. reflexivity.
  - simpl in H. rewrite line_ids_cons in Hk.
    destruct (parse_line line) as [[i tx] | e]; simpl in H; [| discriminate].
    destruct (dict_get d i) as [en |]; [| discriminate].
    apply IH in H; [| intro Hin; apply Hk; apply in_or_app; right; exact Hin].
    rewrite H. apply dict_get_set_other.
    intros ->. apply Hk. left. reflexivity.
Qed.

(** The translation of an entry is never touched by the second loop. *)
Lemma load_text_translated (lines : list str) (k : str) :
  forall d d', load_text lines d = Ok d' ->
    option_map translated (dict_get d' k) = option_map translated (dict_get d k).
Proof.
  induction lines as [| line rest IH]; intros d d' H.
  - simpl in H. injection H as <-. reflexivity.
  - simpl in H.
    destruct (parse_line line) as [[i tx] | e]; simpl in H; [| discriminate].
    destruct (dict_get d i) as [en |] eqn:G; [| discriminate].
    apply IH in H. rewrite H.
    destruct (str_eq_dec i k) as [-> | Hne].
    + rewrite dict_get_set_same, G. reflexivity.
    + rewrite dict_get_set_other by exact Hne. reflexivity.
Qed.

Lemma load_translated_app (l1 l2 : list str) :
  forall d,
    load_translated (l1 ++ l2) d
    = bind (load_translated l1 d) (load_translated l2).
Proof.
  induction l1 as [| line rest IH]; intro d; [reflexivity |].
  simpl. destruct (parse_line line) as [[i tr] | e]; simpl;
    [apply IH | reflexivity].
Qed.

Lemma load_translated_frame (lines : list str) (k : str) :
  ~ In k (line_ids lines) ->
  forall d d', load_translated lines d = Ok d' -> dict_get d' k = dict_get d k.
Proof.
  induction lines as [| line rest IH]; intros Hk d d' H.
  - simpl in H. injection H as <-. reflexivity.
  - simpl in H. rewrite line_ids_cons in Hk.
    destruct (parse_line line) as [[i tr] | e]; simpl in H; [| discriminate].
    apply IH in H; [| intro Hin; apply Hk; apply in_or_app; right; exact Hin].
    rewrite H. apply dict_get_set_other.
    intros ->. apply Hk. left. reflexivity.
Qed.

(** ** CustomDataset *)

Section DatasetProperties.

Context {io : KaldiIO}.

(** What a successful construction went through. *)
Lemma init_ok (fs : FS) (path : str) (is_train : bool) (ds : CustomDataset) :
  CustomDataset_init fs path is_train = Ok ds ->
  exists d1 ld,
    load_translated (file_lines fs (text_tc_de_path path is_train)) [] = Ok d1
    /\ load_text (file_lines fs (text_path path is_train)) d1 = Ok (data ds)
    /\ kaldi_loader (wav_scp_path path is_train) = Ok ld
    /\ ds = {| data_path := path; data := data ds;
               keys := dict_keys (data ds); loader := ld |}.
Proof.
  unfold CustomDataset_init, open, file_lines. intro H.
  destruct (fs (text_tc_de_path path is_train)) as [c1 |]; [| discriminate].
  simpl in H.
  destruct (load_translated (readlines c1) []) as [d1 | e] eqn:E1;
    [| discriminate].
  simpl in H.
  destruct (fs (text_path path is_train)) as [c2 |]; [| discriminate].
  simpl in H.
  destruct (load_text (readlines c2) d1) as [d2 | e] eqn:E2; [| discriminate].
  simpl in H.
  destruct (kaldi_loader (wav_scp_path path is_train)) as [ld | e] eqn:E3;
    [| discriminate].
  simpl in H. injection H as <-. simpl.
  exists d1, ld. repeat split; assumption.
Qed.

Lemma init_keys (fs : FS) (path : str) (is_train : bool) (ds : CustomDataset) :
  CustomDataset_init fs path is_train = Ok ds ->
  keys ds = dict_keys (data ds).
Proof.
  intro H. apply init_ok in H. destruct H as [d1 [ld [_ [_ [_ ->]]]]].
  reflexivity.
Qed.

(** The text of the last transcript line of an identifier is what is
    stored for it, decoded. *)
Lemma stored_text_last (fs : FS) (path : str) (is_train : bool)
    (ds : CustomDataset) (pre : list str) (line : str) (post : list str)
    (audio_id raw : str) :
  CustomDataset_init fs path is_train = Ok ds ->
  file_lines fs (text_path path is_train) = pre ++ line :: post ->
  ~ In audio_id (line_ids post) ->
  split_line line = Ok (audio_id, raw) ->
  stored_text (data ds) audio_id = Some (decode raw).
Proof.
  intros Hinit Hlines Hpost Hline.
  apply init_ok in Hinit. destruct Hinit as [d1 [ld [_ [H2 _]]]].
  rewrite Hlines, load_text_app in H2.
  apply bind_ok in H2. destruct H2 as [dm [_ H2]].
  simpl in H2. rewrite (parse_line_split _ _ _ Hline) in H2. simpl in H2.
  destruct (dict_get dm audio_id) as [e |]; [| discriminate].
  apply (load_text_frame _ _ Hpost) in H2.
  unfold stored_text. rewrite H2, dict_get_set_same. reflexivity.
Qed.

(** The same for the translation file and ['translated']. *)
Lemma stored_translated_last (fs : FS) (path : str) (is_train : bool)
    (ds : CustomDataset) (pre : list str) (line : str) (post : list str)
    (audio_id raw : str) :
  CustomDataset_init fs path is_train = Ok ds ->
  file_lines fs (text_tc_de_path path is_train) = pre ++ line :: post ->
  ~ In audio_id (line_ids post) ->
  split_line line = Ok (audio_id, raw) ->
  stored_translated (data ds) audio_id = Some (decode raw).
Proof.
  intros Hinit Hlines Hpost Hline.
  apply init_ok in Hinit. destruct Hinit as [d1 [ld [H1 [H2 _]]]].
  rewrite Hlines, load_translated_app in H1.
  apply bind_ok in H1. destruct H1 as [dm [_ H1]].
  simpl in H1. rewrite (parse_line_split _ _ _ Hline) in H1. simpl in H1.
  apply (load_translated_frame _ _ Hpost) in H1.
  unfold stored_translated. rewrite (load_text_translated _ audio_id _ _ H2).
  rewrite H1, dict_get_set_same. reflexivity.
Qed.

(** C1, as amended.  Take a line of the translation file or of the
    transcript file that is the last line of its identifier in that file,
    in a corpus from which a dataset was built.  When its text part has an
    escape with a space before it, what is stored for the identifier
    (['translated'] for the translation file, ['text'] for the transcript
    file) has the space and the escape replaced by the character: an
    apostrophe for [ &apos;], a double quote for [ &quot;], an ampersand
    for [ &amp;], the text on both sides being decoded in the same way.
    When its text part has none of the three with a space before it, the
    text part is stored as it was read. *)
Theorem spaced_escape_decoded (fs : FS) (path : str) (is_train : bool)
    (ds : CustomDataset) (pre : list str) (line : str) (post : list str)
    (audio_id raw : str) :
  CustomDataset_init fs path is_train = Ok ds ->
  split_line line = Ok (audio_id, raw) ->
  ~ In audio_id (line_ids post) ->
  (file_lines fs (text_tc_de_path path is_train) = pre ++ line :: post ->
   decoded_in (stored_translated (data ds) audio_id) raw)
  /\ (file_lines fs (text_path path is_train) = pre ++ line :: post ->
      decoded_in (stored_text (data ds) audio_id) raw).
Proof.
  intros Hinit Hline Hpost.
  assert (Hdec : forall stored, stored = Some (decode raw) ->
                   decoded_in stored raw).
  { intros stored ->. unfold decoded_in.
    split; [| split; [| split]].
    - intros a b ->. f_equal. apply decode_apos.
    - intros a b ->. f_equal. apply decode_quot.
    - intros a b ->. f_equal. apply decode_amp.
    - intro H. f_equal. apply decode_verbatim. exact H. }
  split; intro Hlines; apply Hdec.
  - exact (stored_translated_last _ _ _ _ _ _ _ _ _ Hinit Hlines Hpost Hline).
  - exact (stored_text_last _ _ _ _ _ _ _ _ _ Hinit Hlines Hpost Hline).
Qed.

(** C2, as amended.  The length of a dataset that was built without
    error is the number of different identifiers of the translation file
    [text.tc.de]; every identifier of the transcript file [text] is one
    of them. *)
Theorem len_counts_translation_ids (fs : FS) (path : str) (is_train : bool)
    (ds : CustomDataset) :
  CustomDataset_init fs path is_train = Ok ds ->
  snd (CustomDataset_len ds)
  = Z.of_nat (count_unique (file_ids fs (text_tc_de_path path is_train)))
  /\ incl (file_ids fs (text_path path is_train))
          (file_ids fs (text_tc_de_path path is_train)).
Proof.
  intro Hinit. pose proof (init_keys _ _ _ _ Hinit) as Hk.
  apply init_ok in Hinit. destruct Hinit as [d1 [ld [H1 [H2 _]]]].
  apply load_translated_keys in H1; [| constructor].
  destruct H1 as [Hnd Hin]. apply load_text_keys in H2.
  destruct H2 as [Hkeys Hincl]. unfold file_ids.
  split.
  - unfold CustomDataset_len, count_unique. simpl. f_equal.
    rewrite Hk, Hkeys. apply Nat.le_antisymm.
    + apply NoDup_incl_length; [exact Hnd |].
      intros x Hx. apply nodup_In. apply Hin in Hx.
      destruct Hx as [[] | Hx]. exact Hx.
    + apply NoDup_incl_length; [apply NoDup_nodup |].
      intros x Hx. apply nodup_In in Hx. apply Hin. right. exact Hx.
  - intros x Hx. apply Hincl in Hx. apply Hin in Hx.
    destruct Hx as [[] | Hx]. exact Hx.
Qed.

End DatasetProperties.

(** ** Strings: [strip] and [split] *)

Lemma lstrip_blank (w s : str) : blank w = true -> lstrip (w ++ s) = lstrip s.
Proof.
  induction w as [| c w IH]; simpl; intro H; [reflexivity |].
  apply andb_prop in H. destruct H as [Hc Hw]. rewrite Hc. apply IH. exact Hw.
Qed.

Lemma lstrip_head (c : char) (s : str) :
  isspace c = false -> lstrip (c :: s) = c :: s.
Proof. intro H. simpl. rewrite H. reflexivity. Qed.

Lemma blank_rev (w : str) : blank w = true -> blank (rev w) = true.
Proof.
  unfold blank. rewrite !forallb_forall. intros H x Hx.
  apply H. apply in_rev. exact Hx.
Qed.

Lemma trimmed_rev (x : str) :
  trimmed x = true ->
  exists c t, rev x = c :: t /\ isspace c = false.
Proof.
  destruct x as [| c0 x]; [discriminate |]. unfold trimmed. intro H.
  apply andb_prop in H. destruct H as [_ H]. apply negb_true_iff in H.
  exists (last (c0 :: x) c0), (rev (removelast (c0 :: x))).
  split; [| exact H].
  rewrite (app_removelast_last c0 (l := c0 :: x)) at 1 by discriminate.
  rewrite rev_app_distr. reflexivity.
Qed.

Lemma rstrip_trimmed (u x w : str) :
  trimmed x = true -> blank w = true -> rstrip (u ++ x ++ w) = u ++ x.
Proof.
  intros Hx Hw. unfold rstrip.
  rewrite !rev_app_distr, <- app_assoc.
  rewrite lstrip_blank by (apply blank_rev; exact Hw).
  destruct (trimmed_rev x Hx) as [c [t [Hr Hc]]].
  rewrite Hr. simpl app. rewrite lstrip_head by exact Hc.
  change (c :: t ++ rev u) with ((c :: t) ++ rev u).
  rewrite <- Hr, <- rev_app_distr. apply rev_involutive.
Qed.

Lemma span_word_gap (w ws s : str) :
  forallb (fun c => negb (isspace c)) w = true -> gap ws = true ->
  span_word (w ++ ws ++ s) = (w, ws ++ s).
Proof.
  intros Hw Hws. induction w as [| c w IH]; simpl.
  - destruct ws as [| c ws]; [discriminate |].
    simpl in Hws. apply andb_prop in Hws. destruct Hws as [Hc _].
    simpl. rewrite Hc. reflexivity.
  - simpl in Hw. apply andb_prop in Hw. destruct Hw as [Hc Hw].
    apply negb_true_iff in Hc. rewrite Hc, (IH Hw). reflexivity.
Qed.

(** How a well-formed line is cut: the identifier, and the text without
    the whitespace around it. *)
Lemma split_line_fields (audio_id ws x ws' : str) :
  word audio_id = true -> gap ws = true ->
  trimmed x = true -> blank ws' = true ->
  split_line (audio_id ++ ws ++ x ++ ws') = Ok (audio_id, x).
Proof.
  intros Hid Hws Hx Hws'.
  destruct audio_id as [| c i]; [discriminate |].
  unfold word in Hid. pose proof Hid as Hall. simpl in Hid.
  apply andb_prop in Hid. destruct Hid as [Hc _]. apply negb_true_iff in Hc.
  assert (Hblank : blank ws = true) by (destruct ws; [discriminate | exact Hws]).
  assert (Hstrip : strip ((c :: i) ++ ws ++ x ++ ws') = (c :: i) ++ ws ++ x).
  { unfold strip. simpl app at 1. rewrite lstrip_head by exact Hc.
    change (c :: i ++ ws ++ x ++ ws') with ((c :: i) ++ ws ++ x ++ ws').
    rewrite app_assoc. rewrite rstrip_trimmed by assumption.
    rewrite <- app_assoc. reflexivity. }
  unfold split_line. rewrite Hstrip. unfold split.
  cbn [split_fuel].
  change ((c :: i) ++ ws ++ x) with (c :: (i ++ ws ++ x)) at 1.
  rewrite lstrip_head by exact Hc.
  cbn [option_map Nat.pred].
  change (c :: (i ++ ws ++ x)) with ((c :: i) ++ ws ++ x).
  rewrite span_word_gap by assumption.
  simpl List.length. cbn [split_fuel].
  rewrite lstrip_blank by exact Hblank.
  destruct x as [| cx x]; [discriminate |].
  unfold trimmed in Hx. apply andb_prop in Hx. destruct Hx as [Hcx _].
  apply negb_true_iff in Hcx. rewrite lstrip_head by exact Hcx.
  reflexivity.
Qed.

(** Fewer than two fields is exactly when the unpacking fails. *)
Lemma malformed_iff (line : str) :
  malformed line = true <-> split_line line = Raise ValueError.
Proof.
  unfold malformed, fields, split_line, split.
  remember (strip line) as s eqn:Hs. clear Hs line.
  cbn [split_fuel].
  destruct (lstrip s) as [| c r] eqn:El.
  - simpl. split; reflexivity.
  - cbn [option_map Nat.pred].
    destruct (span_word (c :: r)) as [w rest].
    destruct s as [| c0 s]; [simpl in El; discriminate |].
    cbn [List.length split_fuel].
    destruct (lstrip rest) as [| c' r'].
    + simpl. split; reflexivity.
    + destruct (span_word (c' :: r')). simpl. split; discriminate.
Qed.

Lemma malformed_parse (line : str) :
  malformed line = true -> parse_line line = Raise ValueError.
Proof.
  intro H. apply malformed_iff in H. unfold parse_line. rewrite H. reflexivity.
Qed.

Lemma load_translated_malformed (lines : list str) (line : str) :
  In line lines -> malformed line = true ->
  forall d, load_translated lines d = Raise ValueError.
Proof.
  intros Hin Hbad. induction lines as [| l rest IH]; intro d; [destruct Hin |].
  simpl. destruct (parse_line l) as [[i tr] | e] eqn:E; simpl.
  - destruct Hin as [-> | Hin].
    + rewrite (malformed_parse _ Hbad) in E. discriminate.
    + apply IH. exact Hin.
  - f_equal. exact (parse_line_raise _ _ E).
Qed.

Lemma load_text_malformed (lines : list str) (line : str) :
  In line lines -> malformed line = true ->
  forall d, exists e, load_text lines d = Raise e.
Proof.
  intros Hin Hbad. induction lines as [| l rest IH]; intro d; [destruct Hin |].
  simpl. destruct (parse_line l) as [[i tx] | e] eqn:E; simpl.
  - destruct Hin as [-> | Hin].
    + rewrite (malformed_parse _ Hbad) in E. discriminate.
    + destruct (dict_get d i); [apply IH; exact Hin | eexists; reflexivity].
  - eexists; reflexivity.
Qed.

Lemma load_text_raise (lines : list str) :
  Forall (fun l => malformed l = false) lines ->
  forall d e, load_text lines d = Raise e -> e = KeyError.
Proof.
  induction 1 as [| l rest Hl _ IH]; intros d e H; [discriminate |].
  simpl in H. destruct (parse_line l) as [[i tx] | e'] eqn:E; simpl in H.
  - destruct (dict_get d i); [exact (IH _ _ H) | congruence].
  - exfalso. unfold parse_line in E.
    destruct (split_line l) as [[i x] | e''] eqn:E'; [discriminate |].
    pose proof (split_line_raise _ _ E') as ->.
    apply malformed_iff in E'. congruence.
Qed.

Lemma load_translated_total (lines : list str) :
  Forall (fun l => malformed l = false) lines ->
  forall d, exists d', load_translated lines d = Ok d'.
Proof.
  induction 1 as [| l rest Hl _ IH]; intro d; [exists d; reflexivity |].
  simpl. destruct (parse_line l) as [[i tr] | e] eqn:E; simpl; [apply IH |].
  exfalso. unfold parse_line in E.
  destruct (split_line l) as [[i x] | e''] eqn:E'; [discriminate |].
  pose proof (split_line_raise _ _ E') as ->.
  apply malformed_iff in E'. congruence.
Qed.

(** The first loop leaves every entry without a ['text']. *)
Lemma load_translated_no_text (lines : list str) :
  forall d d', load_translated lines d = Ok d' ->
    (forall k, stored_text d k = None) ->
    forall k, stored_text d' k = None.
Proof.
  induction lines as [| line rest IH]; intros d d' H Hd.
  - simpl in H. injection H as <-. exact Hd.
  - simpl in H.
    destruct (parse_line line) as [[i tr] | e]; simpl in H; [| discriminate].
    apply (IH _ _ H). intro k. unfold stored_text.
    destruct (str_eq_dec i k) as [-> | Hne].
    + rewrite dict_get_set_same. reflexivity.
    + rewrite dict_get_set_other by exact Hne. apply Hd.
Qed.

Lemma list_index_in {A : Type} (l : list A) (x : A) :
  In x l -> exists idx, list_index l idx = Ok x.
Proof.
  intro H. apply In_nth_error in H. destruct H as [n Hn].
  assert (Hlt : (n < List.length l)%nat).
  { apply nth_error_Some. congruence. }
  exists (Z.of_nat n). unfold list_index.
  replace (Z.of_nat n <? 0)%Z with false by (symmetry; apply Z.ltb_ge; lia).
  replace ((0 <=? Z.of_nat n) && (Z.of_nat n <? Z.of_nat (List.length l)))%Z
    with true
    by (symmetry; apply andb_true_intro; split;
        [apply Z.leb_le | apply Z.ltb_lt]; lia).
  rewrite Nat2Z.id, Hn. reflexivity.
Qed.

Section DatasetErrors.

Context {io : KaldiIO}.

(** An identifier that only the translation file has: its entry has no
    ['text']. *)
Lemma translation_only_no_text (fs : FS) (path : str) (is_train : bool)
    (ds : CustomDataset) (audio_id : str) :
  CustomDataset_init fs path is_train = Ok ds ->
  ~ In audio_id (file_ids fs (text_path path is_train)) ->
  stored_text (data ds) audio_id = None.
Proof.
  intros Hinit Hout. apply init_ok in Hinit.
  destruct Hinit as [d1 [ld [H1 [H2 _]]]].
  unfold stored_text. rewrite (load_text_frame _ _ Hout _ _ H2).
  apply (load_translated_no_text _ _ _ H1). reflexivity.
Qed.

Lemma getitem_no_text (ds : CustomDataset) (idx : Z) (audio_id : str) :
  list_index (keys ds) idx = Ok audio_id ->
  stored_text (data ds) audio_id = None ->
  exists e, snd (CustomDataset_getitem ds idx) = Raise e
    /\ forall a a', loader_getitem (loader ds) audio_id = Ok a ->
         astype_float32 a = Ok a' -> e = KeyError.
Proof.
  intros Hidx Hno. unfold CustomDataset_getitem. cbn [snd].
  rewrite Hidx. cbn [bind].
  assert (Hf : data_field ds idx text = Raise KeyError).
  { unfold data_field. rewrite Hidx. cbn [bind].
    unfold stored_text in Hno.
    destruct (dict_get (data ds) audio_id) as [e |]; [| reflexivity].
    rewrite Hno. reflexivity. }
  destruct (loader_getitem (loader ds) audio_id) as [a | e1] eqn:E1;
    cbn [bind].
  - destruct (astype_float32 a) as [a' | e2] eqn:E2; cbn [bind].
    + rewrite Hf. cbn [bind]. exists KeyError. split; [reflexivity | auto].
    + exists e2. split; [reflexivity |].
      intros a0 a' Ha H. injection Ha as <-. congruence.
  - exists e1. split; [reflexivity | intros ? ? H; discriminate H].
Qed.

(** C4, as amended.  An identifier that the transcript file has and
    the translation file has not makes the construction itself fail
    (with [KeyError] when both files exist and have no malformed line).
    An identifier that the translation file has and the transcript file
    has not lets the construction succeed: the identifier is a key of
    the dataset, and [__getitem__] at its index fails, with [KeyError]
    once the loader has produced the waveform. *)
Theorem mismatch_surfaces (fs : FS) (path : str) (is_train : bool)
    (audio_id : str) :
  (In audio_id (file_ids fs (text_path path is_train)) ->
   ~ In audio_id (file_ids fs (text_tc_de_path path is_train)) ->
   exists e, CustomDataset_init fs path is_train = Raise e
     /\ (fs (text_tc_de_path path is_train) <> None ->
         Forall (fun l => malformed l = false)
           (file_lines fs (text_tc_de_path path is_train)
            ++ file_lines fs (text_path path is_train)) ->
         e = KeyError))
  /\ (forall ds,
        CustomDataset_init fs path is_train = Ok ds ->
        In audio_id (file_ids fs (text_tc_de_path path is_train)) ->
        ~ In audio_id (file_ids fs (text_path path is_train)) ->
        (exists idx, list_index (keys ds) idx = Ok audio_id)
        /\ forall idx, list_index (keys ds) idx = Ok audio_id ->
             exists e, snd (CustomDataset_getitem ds idx) = Raise e
               /\ forall a a',
                    loader_getitem (loader ds) audio_id = Ok a ->
                    astype_float32 a = Ok a' -> e = KeyError).
Proof.
  split.
  - intros Hin Hout.
    destruct (CustomDataset_init fs path is_train) as [ds | e] eqn:E.
    + exfalso. apply Hout.
      exact (proj2 (len_counts_translation_ids _ _ _ _ E) _ Hin).
    + exists e. split; [reflexivity |]. intros Hfile Hwf.
      apply Forall_app in Hwf. destruct Hwf as [Hwf1 Hwf2].
      unfold CustomDataset_init, open in E.
      unfold file_ids, file_lines in Hin, Hout, Hwf1, Hwf2.
      destruct (fs (text_tc_de_path path is_train)) as [c1 |];
        [| congruence].
      cbn [bind] in E.
      destruct (load_translated_total _ Hwf1 []) as [d1 H1].
      rewrite H1 in E. cbn [bind] in E.
      destruct (fs (text_path path is_train)) as [c2 |]; [| destruct Hin].
      cbn [bind] in E.
      destruct (load_text (readlines c2) d1) as [d2 | e2] eqn:E2.
      * exfalso. apply Hout.
        apply load_translated_keys in H1; [| constructor].
        apply load_text_keys in E2. destruct E2 as [_ Hincl].
        destruct H1 as [_ H1]. apply Hincl in Hin. apply H1 in Hin.
        destruct Hin as [[] | Hin]. exact Hin.
      * cbn [bind] in E. injection E as <-.
        exact (load_text_raise _ Hwf2 _ _ E2).
  - intros ds Hinit Hin Hout.
    pose proof (translation_only_no_text _ _ _ _ _ Hinit Hout) as Hno.
    split.
    + apply list_index_in. rewrite (init_keys _ _ _ _ Hinit).
      apply init_ok in Hinit. destruct Hinit as [d1 [ld [H1 [H2 _]]]].
      apply load_translated_keys in H1; [| constructor].
      apply load_text_keys in H2. destruct H2 as [-> _].
      apply H1. right. exact Hin.
    + intros idx Hidx. exact (getitem_no_text _ _ _ Hidx Hno).
Qed.

(** C5.  A line of the translation file or of the transcript file that
    has fewer than two whitespace-separated fields once stripped (an
    empty line too) makes the construction raise: no dataset is built.
    When the line is in the translation file the error is the
    [ValueError] of the unpacking. *)
Theorem malformed_line_fails_fast (fs : FS) (path : str) (is_train : bool)
    (line : str) :
  In line (file_lines fs (text_tc_de_path path is_train))
  \/ In line (file_lines fs (text_path path is_train)) ->
  malformed line = true ->
  exists e, CustomDataset_init fs path is_train = Raise e
    /\ (In line (file_lines fs (text_tc_de_path path is_train)) ->
        e = ValueError).
Proof.
  unfold CustomDataset_init, open, file_lines. intros Hin Hbad.
  destruct (fs (text_tc_de_path path is_train)) as [c1 |]; cbn [bind].
  2:{ exists FileNotFoundError. split; [reflexivity | intros []]. }
  destruct (in_dec str_eq_dec line (readlines c1)) as [H1 | H1].
  - rewrite (load_translated_malformed _ _ H1 Hbad). cbn [bind].
    exists ValueError. split; reflexivity.
  - destruct Hin as [Hin | Hin]; [contradiction |].
    destruct (load_translated (readlines c1) []) as [d1 | e]; cbn [bind].
    2:{ exists e. split; [reflexivity | contradiction]. }
    destruct (fs (text_path path is_train)) as [c2 |]; [| destruct Hin].
    cbn [bind].
    destruct (load_text_malformed _ _ Hin Hbad d1) as [e He].
    rewrite He. cbn [bind]. exists e. split; [reflexivity | contradiction].
Qed.

End DatasetErrors.

Section DatasetRecords.

Context {io : KaldiIO}.

Lemma plain_line_parse (audio_id ws x ws' : str) :
  plain_line audio_id ws x ws' = true ->
  parse_line (audio_id ++ ws ++ x ++ ws') = Ok (audio_id, x).
Proof.
  unfold plain_line. intro H.
  repeat (apply andb_prop in H; let H' := fresh "H" in destruct H as [H H']).
  rewrite (parse_line_split _ audio_id x) by (apply split_line_fields; assumption).
  rewrite decode_verbatim by assumption. reflexivity.
Qed.

(** A corpus of one line per file.  When the translation file is one
    line made of an identifier, whitespace and a text, and the transcript
    file is one line made of the same identifier, whitespace and a text
    (neither text holding an escape to decode), the construction fails
    only if the loader cannot be built, and the dataset has exactly one
    record. *)
Lemma record_of_plain_lines (fs : FS) (path : str) (is_train : bool)
    (audio_id ws1 tr ws1' ws2 tx ws2' : str) :
  file_lines fs (text_tc_de_path path is_train)
    = [audio_id ++ ws1 ++ tr ++ ws1'] ->
  file_lines fs (text_path path is_train)
    = [audio_id ++ ws2 ++ tx ++ ws2'] ->
  plain_line audio_id ws1 tr ws1' = true ->
  plain_line audio_id ws2 tx ws2' = true ->
  CustomDataset_init fs path is_train
  = (ld <- kaldi_loader (wav_scp_path path is_train) ;;
     Ok {| data_path := path;
           data := [(audio_id, {| translated := tr; text := Some tx |})];
           keys := [audio_id];
           loader := ld |})
  /\ forall ds,
       CustomDataset_init fs path is_train = Ok ds ->
       snd (CustomDataset_getitem ds 0)
       = (a <- loader_getitem (loader ds) audio_id ;;
          speech <- astype_float32 a ;;
          Ok {| item_speech := speech;
                item_text := tx;
                item_translated := tr |}).
Proof.
  intros F1 F2 P1 P2.
  assert (Hinit :
    CustomDataset_init fs path is_train
    = (ld <- kaldi_loader (wav_scp_path path is_train) ;;
       Ok {| data_path := path;
             data := [(audio_id, {| translated := tr; text := Some tx |})];
             keys := [audio_id];
             loader := ld |})).
  { unfold CustomDataset_init, open. unfold file_lines in F1, F2.
    destruct (fs (text_tc_de_path path is_train)) as [c1 |]; [| discriminate].
    destruct (fs (text_path path is_train)) as [c2 |]; [| discriminate].
    cbn [bind]. rewrite F1. cbn [load_translated].
    rewrite (plain_line_parse _ _ _ _ P1). cbn [bind dict_set].
    rewrite F2. cbn [load_text].
    rewrite (plain_line_parse _ _ _ _ P2). cbn [bind dict_get].
    rewrite str_eqb_refl. cbn [dict_set translated].
    rewrite str_eqb_refl. reflexivity. }
  split; [exact Hinit |].
  intros ds Hds. rewrite Hinit in Hds.
  destruct (kaldi_loader (wav_scp_path path is_train)) as [ld | e];
    [| discriminate].
  cbn [bind] in Hds. injection Hds as <-.
  unfold CustomDataset_getitem, data_field. cbn [snd keys data loader].
  change (list_index [audio_id] 0) with (Ok audio_id).
  cbn [bind dict_get]. rewrite str_eqb_refl. cbn [text translated].
  reflexivity.
Qed.

End DatasetRecords.

(** ** The dataset on the concrete corpora *)

(** C1, as it is stated, fails: an escape right after a letter is stored
    as it was read. *)
Lemma joined_escape_kept :
  exists ds,
    CustomDataset_init (io := Demo.io) Demo.utt2_joined Demo.dump true = Ok ds
    /\ split_line (Demo.line "utt2 it&apos;s fine")
       = Ok (py "utt2", py "it&apos;s fine")
    /\ has_sub (py "&apos;") (py "it&apos;s fine") = true
    /\ stored_text (data ds) (py "utt2") = Some (py "it&apos;s fine")
    /\ stored_text (data ds) (py "utt2") <> Some (py "it's fine").
Proof.
  eexists. split; [vm_compute; reflexivity |].
  split; [vm_compute; reflexivity |].
  split; [vm_compute; reflexivity |].
  split; [vm_compute; reflexivity |].
  vm_compute. discriminate.
Qed.

Lemma spaced_escape_decoded_utt2 :
  exists ds,
    CustomDataset_init (io := Demo.io) Samples.both_spaced Demo.dump true = Ok ds
    /\ stored_translated (data ds) (py "utt2") = Some (py "so'n Ding")
    /\ stored_text (data ds) (py "utt2") = Some (py "it's fine")
    /\ stored_text (data ds) (py "utt0") = Some (py "R&D")
    /\ stored_translated (data ds) (py "utt0") = Some (py "F&amp;E").
Proof.
  eexists. split; [vm_compute; reflexivity |].
  pose proof (spaced_escape_decoded (io := Demo.io)
                Samples.both_spaced Demo.dump true _
                [Demo.line "utt0 F&amp;E"] (Demo.line "utt2 so &apos;n Ding") []
                (py "utt2") (py "so &apos;n Ding")
                eq_refl eq_refl (fun H => H)) as [T2 _].
  pose proof (spaced_escape_decoded (io := Demo.io)
                Samples.both_spaced Demo.dump true _
                [Demo.line "utt0 R &amp;D"] (Demo.line "utt2 it &apos;s fine") []
                (py "utt2") (py "it &apos;s fine")
                eq_refl eq_refl (fun H => H)) as [_ X2].
  assert (Hlast : ~ In (py "utt0") (line_ids [Demo.line "utt2 it &apos;s fine"]))
    by (vm_compute; intros [H | []]; discriminate H).
  assert (Hlast' : ~ In (py "utt0") (line_ids [Demo.line "utt2 so &apos;n Ding"]))
    by (vm_compute; intros [H | []]; discriminate H).
  pose proof (spaced_escape_decoded (io := Demo.io)
                Samples.both_spaced Demo.dump true _
                [] (Demo.line "utt0 R &amp;D") [Demo.line "utt2 it &apos;s fine"]
                (py "utt0") (py "R &amp;D") eq_refl eq_refl Hlast) as [_ X0].
  pose proof (spaced_escape_decoded (io := Demo.io)
                Samples.both_spaced Demo.dump true _
                [] (Demo.line "utt0 F&amp;E") [Demo.line "utt2 so &apos;n Ding"]
                (py "utt0") (py "F&amp;E") eq_refl eq_refl Hlast') as [T0 _].
  split; [exact (proj1 (T2 eq_refl) (py "so") (py "n Ding") eq_refl) |].
  split; [exact (proj1 (X2 eq_refl) (py "it") (py "s fine") eq_refl) |].
  split.
  - exact (proj1 (proj2 (proj2 (X0 eq_refl))) (py "R") (py "D") eq_refl).
  - exact (proj2 (proj2 (proj2 (T0 eq_refl))) eq_refl).
Defined.

(** C2, as it is stated, fails: two translations and one transcript give
    a dataset of length 2. *)
Lemma len_exceeds_transcript_ids :
  exists ds,
    CustomDataset_init (io := Demo.io) Demo.two_one Demo.dump true = Ok ds
    /\ snd (CustomDataset_len ds) = 2%Z
    /\ count_unique (file_ids Demo.two_one (text_path Demo.dump true)) = 1%nat.
Proof.
  eexists. split; [vm_compute; reflexivity |].
  split; vm_compute; reflexivity.
Qed.

Lemma len_counts_translation_ids_two_one :
  exists ds,
    CustomDataset_init (io := Demo.io) Demo.two_one Demo.dump true = Ok ds
    /\ snd (CustomDataset_len ds) = 2%Z.
Proof.
  eexists. split; [vm_compute; reflexivity |].
  exact (proj1 (len_counts_translation_ids (io := Demo.io)
                  Demo.two_one Demo.dump true _ eq_refl)).
Defined.

(** C4, as it is stated, fails: with a transcript for an identifier that
    has no translation the construction does not succeed. *)
Lemma stray_transcript_fails :
  In (py "b") (file_ids Demo.stray_transcript (text_path Demo.dump true))
  /\ ~ In (py "b")
         (file_ids Demo.stray_transcript (text_tc_de_path Demo.dump true))
  /\ CustomDataset_init (io := Demo.io) Demo.stray_transcript Demo.dump true
     = Raise KeyError.
Proof.
  split; [vm_compute; left; reflexivity |].
  split; [vm_compute; intros [H | []]; discriminate H |].
  vm_compute. reflexivity.
Qed.

Lemma mismatch_surfaces_both_ways :
  CustomDataset_init (io := Demo.io) Demo.stray_transcript Demo.dump true
  = Raise KeyError
  /\ exists ds,
       CustomDataset_init (io := Demo.io) Demo.two_one Demo.dump true = Ok ds
       /\ list_index (keys ds) 1 = Ok (py "b")
       /\ snd (CustomDataset_getitem ds 1) = Raise KeyError.
Proof.
  split.
  - destruct (proj1 (mismatch_surfaces (io := Demo.io)
                       Demo.stray_transcript Demo.dump true (py "b")))
      as [e [He Hk]].
    + vm_compute. left. reflexivity.
    + vm_compute. intros [H | []]. discriminate H.
    + rewrite He. f_equal. apply Hk.
      * vm_compute. discriminate.
      * repeat constructor.
  - eexists. split; [vm_compute; reflexivity |].
    split; [reflexivity |].
    destruct (proj2 (mismatch_surfaces (io := Demo.io)
                       Demo.two_one Demo.dump true (py "b")) _ eq_refl)
      as [_ Hget].
    + vm_compute. right. left. reflexivity.
    + vm_compute. intros [H | []]. discriminate H.
    + destruct (Hget 1%Z eq_refl) as [e [He Hk]].
      refine (eq_trans He _). f_equal.
      exact (Hk (py "b") (py "b") eq_refl eq_refl).
Defined.

Lemma malformed_line_fails_fast_short :
  malformed (Demo.line "a") = true
  /\ malformed [NL] = true
  /\ exists e,
       CustomDataset_init (io := Demo.io) Demo.short_line Demo.dump true
       = Raise e.
Proof.
  split; [reflexivity |]. split; [reflexivity |].
  destruct (malformed_line_fails_fast (io := Demo.io)
              Demo.short_line Demo.dump true (Demo.line "a"))
    as [e [He _]].
  - right. vm_compute. left. reflexivity.
  - reflexivity.
  - exists e. exact He.
Defined.

Lemma record_of_utt1 :
  exists ds,
    CustomDataset_init (io := Demo.io) Demo.utt1 Demo.dump true = Ok ds
    /\ data ds
       = [(py "utt1", {| translated := Demo.er_ist_spaet;
                         text := Some (py "he is late") |})]
    /\ snd (CustomDataset_getitem ds 0)
       = Ok {| item_speech := (py "utt1" : @Array Demo.io);
               item_text := py "he is late";
               item_translated := Demo.er_ist_spaet |}.
Proof.
  destruct (record_of_plain_lines (io := Demo.io) Demo.utt1 Demo.dump true
              (py "utt1") [SP] Demo.er_ist_spaet [NL]
              [SP] (py "he is late") [NL]
              eq_refl eq_refl eq_refl eq_refl) as [Hinit Hget].
  eexists. split; [exact Hinit |]. split; [reflexivity |].
  exact (Hget _ Hinit).
Defined.

(** ** CustomFinetuneModel *)

Lemma stats_undefined : lookup_in_forward "stats" = Raise NameError.
Proof. reflexivity. Qed.

Lemma mod_succ (a N : Z) :
  (0 < N)%Z -> (0 <= a)%Z ->
  ((a + 1) mod N = if (a mod N + 1 =? N) then 0 else a mod N + 1)%Z.
Proof.
  intros HN Ha.
  pose proof (Z.div_mod a N ltac:(lia)) as Hdm.
  pose proof (Z.mod_pos_bound a N HN) as Hr.
  destruct (Z.eqb_spec (a mod N + 1) N) as [E | E]; symmetry.
  - apply Z.mod_unique_pos with (q := (a / N + 1)%Z); lia.
  - apply Z.mod_unique_pos with (q := (a / N)%Z); lia.
Qed.

Lemma window_full (len : nat) (r N : Z) :
  (0 <= r < N)%Z -> (r <= Z.of_nat len)%Z -> (r + 1)%Z = N ->
  (len - Z.to_nat r = len + 1 - Z.to_nat N)%nat.
Proof. lia. Qed.

Lemma window_grows (len : nat) (r N : Z) :
  (0 <= r < N)%Z -> (r <= Z.of_nat len)%Z ->
  (len - Z.to_nat r = len + 1 - Z.to_nat (r + 1))%nat.
Proof. lia. Qed.

Lemma skipn_snoc {A : Type} (k : nat) (l : list A) (x : A) :
  (k <= List.length l)%nat -> skipn k (l ++ [x]) = skipn k l ++ [x].
Proof.
  intro H. rewrite skipn_app.
  replace (k - List.length l)%nat with 0%nat by lia. reflexivity.
Qed.

Lemma firstn_snoc {A : Type} (l : list A) (x : A) (rest : list A) :
  firstn (S (List.length l)) (l ++ x :: rest) = l ++ [x].
Proof.
  rewrite firstn_app. rewrite firstn_all2 by lia.
  replace (S (List.length l) - List.length l)%nat with 1%nat by lia.
  reflexivity.
Qed.

Section ModelProperties.

Context {rt : Runtime} {hub : Hub}.

Lemma forward_return_raises (loss : Loss) :
  forward_return loss = Raise NameError.
Proof. unfold forward_return. rewrite stats_undefined. reflexivity. Qed.

Lemma float_sum_snoc (l : list Float) (x : Float) :
  float_sum (l ++ [x]) = float_add (float_sum l) x.
Proof. unfold float_sum. rewrite fold_left_app. reflexivity. Qed.

(** C10.  [collect_feats] hands its two tensors back under the keys
    ['feats'] and ['feats_lengths'], whatever the other arguments, and
    leaves the model as it was. *)
Theorem collect_feats_passthrough (self : CustomFinetuneModel)
    (speech : Batch) (speech_lengths : Lengths)
    (args : list PyObject) (kwargs : Kwargs) :
  collect_feats self speech speech_lengths args kwargs
  = (self, {| feats := speech; feats_lengths := speech_lengths |}).
Proof. reflexivity. Qed.

(** C3.  [forward] never returns a value; a call that gets as far as
    its [return] statement (the loss was computed and [log_every] is not
    zero, so that the [%] went through) raises [NameError], for [stats]
    is bound neither in the method, nor in the notebook, nor among the
    builtins. *)
Theorem forward_never_returns (self : CustomFinetuneModel)
    (speech : Batch) (speech_lengths : Lengths)
    (text : Labels) (text_lengths : Lengths) (kwargs : Kwargs) :
  (forall v,
     snd (forward self speech speech_lengths text text_lengths kwargs)
     <> Ok v)
  /\ (forall loss,
        forward_loss self speech text = Ok loss ->
        log_every self <> 0%Z ->
        snd (forward self speech speech_lengths text text_lengths kwargs)
        = Raise NameError).
Proof.
  unfold forward, forward_log. split.
  - intro v. destruct (forward_loss self speech text) as [loss | e];
      [| discriminate].
    destruct (log_every self =? 0)%Z; [discriminate |].
    destruct (_ mod _ =? 0)%Z; discriminate.
  - intros loss -> Hn. apply Z.eqb_neq in Hn. rewrite Hn.
    destruct (_ mod _ =? 0)%Z; cbn [snd bind]; apply forward_return_raises.
Qed.

(** C6.  Two speech batches with the same first row (same waveform on
    the same device, or no row at all in both) give the same call of
    [forward]: the same model afterwards, the same printed line, the
    same outcome. *)
Theorem forward_reads_first_row (self : CustomFinetuneModel)
    (speech speech' : Batch) (speech_lengths : Lengths)
    (text : Labels) (text_lengths : Lengths) (kwargs : Kwargs) :
  batch_index0 speech = batch_index0 speech' ->
  forward self speech speech_lengths text text_lengths kwargs
  = forward self speech' speech_lengths text text_lengths kwargs.
Proof.
  intro H.
  assert (Hl : forward_loss self speech text = forward_loss self speech' text).
  { unfold forward_loss. rewrite <- H. unfold batch_index0 in *.
    destruct speech as [d ws], speech' as [d' ws']. cbn [rows device] in *.
    destruct ws as [| w ws]; [reflexivity |].
    destruct ws' as [| w' ws']; [discriminate |].
    injection H as -> ->. reflexivity. }
  unfold forward. rewrite Hl. reflexivity.
Qed.

End ModelProperties.

Section Logging.

Context {rt : Runtime} {hub : Hub}.

Lemma forward_calls_cons (self : CustomFinetuneModel)
    (speech : Batch) (sl : Lengths) (text : Labels) (tl : Lengths)
    (kw : Kwargs) (rest : list (Batch * Lengths * Labels * Lengths * Kwargs)) :
  snd (forward_calls self ((speech, sl, text, tl, kw) :: rest))
  = snd (fst (forward self speech sl text tl kw))
    :: snd (forward_calls (fst (fst (forward self speech sl text tl kw))) rest).
Proof.
  cbn [forward_calls].
  destruct (forward self speech sl text tl kw) as [[self1 out] r].
  cbn [fst snd].
  destruct (forward_calls self1 rest) as [self2 outs]. reflexivity.
Qed.

(** One call on a model whose counters are [acc] and [n]. *)
Lemma forward_step (self : CustomFinetuneModel) (acc : Float) (n : Z)
    (speech : Batch) (sl : Lengths) (text : Labels) (tl : Lengths)
    (kw : Kwargs) (loss : Loss) :
  forward_loss self speech text = Ok loss ->
  (0 < log_every self)%Z ->
  fst (forward (set_stats self acc n) speech sl text tl kw)
  = if ((n + 1) mod log_every self =? 0)%Z then
      (set_stats self float_zero (n + 1),
       [{| log_iter := n + 1;
           log_loss := float_div (float_add acc (item loss)) (log_every self) |}])
    else (set_stats self (float_add acc (item loss)) (n + 1), []).
Proof.
  intros Hl HN. unfold forward.
  change (forward_loss (set_stats self acc n) speech text)
    with (forward_loss self speech text).
  rewrite Hl. unfold forward_log. cbn [log_every set_stats log_stats_loss iter_count].
  replace (log_every self =? 0)%Z with false by (symmetry; apply Z.eqb_neq; lia).
  destruct ((n + 1) mod log_every self =? 0)%Z; reflexivity.
Qed.

Lemma recent_all {A : Type} (l : list A) : recent 0 l = [].
Proof. unfold recent. rewrite Nat.sub_0_r. apply skipn_all. Qed.

Lemma forward_calls_from (self : CustomFinetuneModel) :
  (0 < log_every self)%Z ->
  forall calls losses hist,
    Forall2 (fun '(speech, _, text, _, _) l =>
               forward_loss self speech text = Ok l) calls losses ->
    snd (forward_calls
           (set_stats self
              (float_sum
                 (recent (Z.to_nat (Z.of_nat (List.length hist)
                                    mod log_every self)) hist))
              (Z.of_nat (List.length hist)))
           calls)
    = map (expected_log (log_every self) (hist ++ map item losses))
          (seq (List.length hist) (List.length calls)).
Proof.
  intro HN. induction calls as [| c calls IH]; intros losses hist HF.
  - reflexivity.
  - inversion HF as [| c' l cs ls Hl Hrest]; subst.
    destruct c as [[[[speech sl] text] tl] kw].
    rewrite forward_calls_cons.
    rewrite (forward_step _ _ _ _ _ _ _ _ l Hl HN).
    set (len := List.length hist) in *.
    set (N := log_every self) in *.
    pose proof (mod_succ (Z.of_nat len) N HN ltac:(lia)) as Hsucc.
    pose proof (Z.mod_pos_bound (Z.of_nat len) N HN) as Hr.
    assert (Hle : (Z.of_nat len mod N <= Z.of_nat len)%Z)
      by (apply Z.mod_le; lia).
    specialize (IH ls (hist ++ [item l]) Hrest).
    rewrite length_app in IH. cbn [List.length] in IH. fold len in IH.
    replace (Z.of_nat (len + 1)) with (Z.of_nat len + 1)%Z in IH by lia.
    rewrite <- app_assoc in IH. cbn [app] in IH.
    replace (len + 1)%nat with (S len) in IH by lia.
    cbn [List.length seq map]. unfold expected_log at 1.
    replace (Z.of_nat (S len)) with (Z.of_nat len + 1)%Z by lia.
    cbn [map]. fold len.
    destruct ((Z.of_nat len + 1) mod N =? 0)%Z eqn:E.
    + apply Z.eqb_eq in E. rewrite E in IH. cbn [Z.to_nat] in IH.
      rewrite recent_all in IH. cbn [fst snd].
      change (float_sum []) with float_zero in IH. rewrite IH.
      f_equal. f_equal. f_equal. unfold windowed_mean. f_equal.
      unfold len. rewrite firstn_snoc. fold len.
      unfold recent. rewrite length_app. cbn [List.length]. fold len.
      destruct (Z.eqb_spec (Z.of_nat len mod N + 1) N) as [EN | EN];
        [| lia].
      rewrite skipn_snoc by (change (List.length hist) with len; lia).
      rewrite float_sum_snoc.
      f_equal. f_equal. f_equal. fold len.
      apply window_full; assumption.
    + apply Z.eqb_neq in E. cbn [fst snd]. f_equal.
      rewrite <- IH. f_equal. f_equal.
      destruct (Z.eqb_spec (Z.of_nat len mod N + 1) N) as [EN | EN];
        [lia |].
      rewrite Hsucc. unfold recent. rewrite length_app.
      cbn [List.length]. fold len.
      rewrite skipn_snoc by (change (List.length hist) with len; lia).
      rewrite float_sum_snoc.
      rewrite (window_grows len _ N Hr Hle). reflexivity.
Qed.

End Logging.

(** ** The model on the concrete runtime *)

Lemma forward_never_returns_demo :
  exists m,
    CustomFinetuneModel_init (hub := Demo.hub) 5 10 2 = Ok m
    /\ snd (forward m (Demo.batch [1; 2]%Z) tt 3%Z tt tt) = Raise NameError.
Proof.
  eexists. split; [reflexivity |].
  refine (proj2 (forward_never_returns (rt := Demo.rt) _ _ _ _ _ _) 4%Z _ _).
  - reflexivity.
  - discriminate.
Defined.

Lemma forward_reads_first_row_demo :
  exists m,
    CustomFinetuneModel_init (hub := Demo.hub) 5 10 2 = Ok m
    /\ forward m (Demo.batch [5; 1; 2]%Z) tt 3%Z tt tt
       = forward m (Demo.batch [5; 9]%Z) tt 3%Z tt tt.
Proof.
  eexists. split; [reflexivity |].
  apply (forward_reads_first_row (rt := Demo.rt)). reflexivity.
Defined.

(* ================================================================= *)
(** * Further properties of the dataset *)

Lemma wellformed_parse (line : str) :
  malformed line = false -> exists i x, parse_line line = Ok (i, x).
Proof.
  intro H. unfold parse_line.
  destruct (split_line line) as [[i x] | e] eqn:E.
  - exists i, (decode x). reflexivity.
  - pose proof (split_line_raise _ _ E) as ->.
    apply malformed_iff in E. congruence.
Qed.

Lemma load_translated_wellformed (lines : list str) :
  forall d d', load_translated lines d = Ok d' ->
    Forall (fun l => malformed l = false) lines.
Proof.
  intros d d' H. apply Forall_forall. intros l Hl.
  destruct (malformed l) eqn:E; [| reflexivity].
  rewrite (load_translated_malformed _ _ Hl E d) in H. discriminate.
Qed.

Lemma load_text_wellformed (lines : list str) :
  forall d d', load_text lines d = Ok d' ->
    Forall (fun l => malformed l = false) lines.
Proof.
  intros d d' H. apply Forall_forall. intros l Hl.
  destruct (malformed l) eqn:E; [| reflexivity].
  destruct (load_text_malformed _ _ Hl E d) as [e He]. congruence.
Qed.

Lemma load_text_total (lines : list str) :
  Forall (fun l => malformed l = false) lines ->
  forall d, incl (line_ids lines) (dict_keys d) ->
    exists d', load_text lines d = Ok d'.
Proof.
  induction 1 as [| l rest Hl _ IH]; intros d Hincl; [exists d; reflexivity |].
  destruct (wellformed_parse _ Hl) as [i [x E]].
  rewrite line_ids_cons, E in Hincl. simpl. rewrite E. cbn [bind].
  assert (Hi : In i (dict_keys d)) by (apply Hincl; left; reflexivity).
  destruct (dict_get d i) as [e |] eqn:G.
  - apply IH. rewrite dict_keys_set_present by exact Hi.
    intros k Hk. apply Hincl. right. exact Hk.
  - exfalso. apply dict_get_in_keys in Hi. congruence.
Qed.

Lemma first_seen_ext (l : list str) :
  forall s1 s2, (forall x, In x s1 <-> In x s2) ->
    first_seen s1 l = first_seen s2 l.
Proof.
  induction l as [| x r IH]; intros s1 s2 H; [reflexivity |].
  cbn [first_seen].
  assert (E : existsb (str_eqb x) s1 = existsb (str_eqb x) s2).
  { apply eq_true_iff_eq. rewrite !existsb_exists.
    split; intros [y [Hy Hxy]]; exists y; (split; [apply H; exact Hy | exact Hxy]). }
  rewrite E. destruct (existsb (str_eqb x) s2).
  - apply IH. exact H.
  - f_equal. apply IH. intro y. simpl. rewrite H. tauto.
Qed.

Lemma existsb_str_in (x : str) (l : list str) :
  existsb (str_eqb x) l = true <-> In x l.
Proof.
  rewrite existsb_exists. split.
  - intros [y [Hy E]]. apply str_eqb_eq in E. subst y. exact Hy.
  - intro H. exists x. split; [exact H | apply str_eqb_refl].
Qed.

(** The key list grows by the new identifiers, in the order they come. *)
Lemma load_translated_key_order (lines : list str) :
  forall d d', load_translated lines d = Ok d' ->
    dict_keys d' = dict_keys d ++ first_seen (dict_keys d) (line_ids lines).
Proof.
  induction lines as [| line rest IH]; intros d d' H.
  - simpl in H. injection H as <-. simpl. symmetry. apply app_nil_r.
  - simpl in H. rewrite line_ids_cons.
    destruct (parse_line line) as [[i tr] | e]; simpl in H; [| discriminate].
    apply IH in H. rewrite H. cbn [app first_seen].
    destruct (existsb (str_eqb i) (dict_keys d)) eqn:E.
    + apply existsb_str_in in E.
      rewrite dict_keys_set_present by exact E. reflexivity.
    + assert (Hout : ~ In i (dict_keys d)).
      { intro Hin. apply existsb_str_in in Hin. congruence. }
      rewrite dict_keys_set_absent by exact Hout.
      rewrite <- app_assoc. cbn [app]. f_equal. f_equal.
      apply first_seen_ext. intro x. rewrite in_app_iff. simpl. tauto.
Qed.

Lemma load_text_keeps_text (lines : list str) (k : str) :
  forall d d', load_text lines d = Ok d' ->
    stored_text d k <> None -> stored_text d' k <> None.
Proof.
  induction lines as [| line rest IH]; intros d d' H Hk.
  - simpl in H. injection H as <-. exact Hk.
  - simpl in H.
    destruct (parse_line line) as [[i tx] | e]; simpl in H; [| discriminate].
    destruct (dict_get d i) as [en |]; [| discriminate].
    apply (IH _ _ H). unfold stored_text in *.
    destruct (str_eq_dec i k) as [-> | Hne].
    + rewrite dict_get_set_same. discriminate.
    + rewrite dict_get_set_other by exact Hne. exact Hk.
Qed.

Lemma load_text_sets_text (lines : list str) (k : str) :
  forall d d', load_text lines d = Ok d' ->
    In k (line_ids lines) -> stored_text d' k <> None.
Proof.
  induction lines as [| line rest IH]; intros d d' H Hk; [destruct Hk |].
  simpl in H. rewrite line_ids_cons in Hk.
  destruct (parse_line line) as [[i tx] | e]; simpl in H; [| discriminate].
  destruct (dict_get d i) as [en |]; [| discriminate].
  destruct (in_dec str_eq_dec k (line_ids rest)) as [Hin | Hout].
  - exact (IH _ _ H Hin).
  - destruct Hk as [<- | Hk]; [| contradiction].
    apply (load_text_keeps_text _ _ _ _ H).
    unfold stored_text. rewrite dict_get_set_same. discriminate.
Qed.

Section DatasetMore.

Context {io : KaldiIO}.

Lemma init_ids_incl (fs : FS) (path : str) (is_train : bool)
    (ds : CustomDataset) :
  CustomDataset_init fs path is_train = Ok ds ->
  incl (file_ids fs (text_path path is_train))
       (file_ids fs (text_tc_de_path path is_train)).
Proof.
  intro Hinit. apply init_ok in Hinit. destruct Hinit as [d1 [ld [H1 [H2 _]]]].
  apply load_translated_keys in H1; [| constructor].
  apply load_text_keys in H2. destruct H2 as [_ Hincl].
  intros x Hx. apply Hincl in Hx. apply H1 in Hx.
  destruct Hx as [[] | Hx]. exact Hx.
Qed.

Lemma init_key_order (fs : FS) (path : str) (is_train : bool)
    (ds : CustomDataset) :
  CustomDataset_init fs path is_train = Ok ds ->
  keys ds = first_seen [] (file_ids fs (text_tc_de_path path is_train)).
Proof.
  intro Hinit. rewrite (init_keys _ _ _ _ Hinit).
  apply init_ok in Hinit. destruct Hinit as [d1 [ld [H1 [H2 _]]]].
  apply load_text_keys in H2. destruct H2 as [-> _].
  apply load_translated_key_order in H1. exact H1.
Qed.

Lemma init_keys_nodup (fs : FS) (path : str) (is_train : bool)
    (ds : CustomDataset) :
  CustomDataset_init fs path is_train = Ok ds -> NoDup (keys ds).
Proof.
  intro Hinit. rewrite (init_keys _ _ _ _ Hinit).
  apply init_ok in Hinit. destruct Hinit as [d1 [ld [H1 [H2 _]]]].
  apply load_text_keys in H2. destruct H2 as [-> _].
  apply load_translated_keys in H1; [| constructor]. apply H1.
Qed.

Lemma init_text_present (fs : FS) (path : str) (is_train : bool)
    (ds : CustomDataset) (k : str) :
  CustomDataset_init fs path is_train = Ok ds ->
  (stored_text (data ds) k <> None
   <-> In k (file_ids fs (text_path path is_train))).
Proof.
  intro Hinit. split.
  - intro H. destruct (in_dec str_eq_dec k (file_ids fs (text_path path is_train)))
      as [Hin | Hout]; [exact Hin |].
    exfalso. apply H. exact (translation_only_no_text _ _ _ _ _ Hinit Hout).
  - intro Hin. apply init_ok in Hinit.
    destruct Hinit as [d1 [ld [_ [H2 _]]]].
    exact (load_text_sets_text _ _ _ _ H2 Hin).
Qed.

(** X1.  The construction succeeds exactly when the two text files
    exist, none of their lines has fewer than two fields, every
    identifier of the transcript file is an identifier of the translation
    file, and the Kaldi loader can be built. *)
Theorem construction_succeeds_iff (fs : FS) (path : str) (is_train : bool) :
  (exists ds, CustomDataset_init fs path is_train = Ok ds)
  <-> fs (text_tc_de_path path is_train) <> None
      /\ fs (text_path path is_train) <> None
      /\ Forall (fun l => malformed l = false)
           (file_lines fs (text_tc_de_path path is_train)
            ++ file_lines fs (text_path path is_train))
      /\ incl (file_ids fs (text_path path is_train))
              (file_ids fs (text_tc_de_path path is_train))
      /\ exists ld, kaldi_loader (wav_scp_path path is_train) = Ok ld.
Proof.
  split.
  - intros [ds Hinit]. pose proof (init_ids_incl _ _ _ _ Hinit) as Hincl.
    pose proof Hinit as Hfiles. apply init_ok in Hinit.
    destruct Hinit as [d1 [ld [H1 [H2 [H3 _]]]]].
    unfold CustomDataset_init, open in Hfiles.
    split; [| split; [| split; [| split]]].
    + destruct (fs (text_tc_de_path path is_train)); [discriminate | discriminate].
    + destruct (fs (text_tc_de_path path is_train)); [| discriminate].
      cbn [bind] in Hfiles.
      destruct (load_translated (readlines s) []); [| discriminate].
      cbn [bind] in Hfiles.
      destruct (fs (text_path path is_train)); discriminate.
    + apply Forall_app. split.
      * exact (load_translated_wellformed _ _ _ H1).
      * exact (load_text_wellformed _ _ _ H2).
    + exact Hincl.
    + exists ld. exact H3.
  - intros [F1 [F2 [Hwf [Hincl [ld Hld]]]]].
    apply Forall_app in Hwf. destruct Hwf as [Hwf1 Hwf2].
    unfold CustomDataset_init, open.
    unfold file_ids, file_lines in Hwf1, Hwf2, Hincl.
    destruct (fs (text_tc_de_path path is_train)) as [c1 |]; [| congruence].
    destruct (fs (text_path path is_train)) as [c2 |]; [| congruence].
    cbn [bind].
    destruct (load_translated_total _ Hwf1 []) as [d1 H1]. rewrite H1.
    cbn [bind].
    destruct (load_text_total _ Hwf2 d1) as [d2 H2].
    { intros k Hk. apply Hincl in Hk.
      apply load_translated_keys in H1; [| constructor].
      apply H1. right. exact Hk. }
    rewrite H2. cbn [bind]. rewrite Hld. cbn [bind]. eexists. reflexivity.
Qed.

(** X2.  The keys of a dataset are the identifiers of the translation
    file in the order of their first occurrence, each once: index [i] of
    the dataset is the [i]-th new identifier met in [text.tc.de]. *)
Theorem keys_in_first_occurrence_order (fs : FS) (path : str)
    (is_train : bool) (ds : CustomDataset) :
  CustomDataset_init fs path is_train = Ok ds ->
  keys ds = first_seen [] (file_ids fs (text_tc_de_path path is_train))
  /\ NoDup (keys ds).
Proof.
  intro Hinit. split.
  - exact (init_key_order _ _ _ _ Hinit).
  - exact (init_keys_nodup _ _ _ _ Hinit).
Qed.

(** X3.  When an identifier comes on several lines of a file, the last
    of them decides what is stored: ['translated'] is the decoded text of
    its last line in [text.tc.de], ['text'] that of its last line in
    [text]. *)
Theorem last_line_wins (fs : FS) (path : str) (is_train : bool)
    (ds : CustomDataset) (audio_id : str) :
  CustomDataset_init fs path is_train = Ok ds ->
  (forall pre line post raw,
     file_lines fs (text_tc_de_path path is_train) = pre ++ line :: post ->
     ~ In audio_id (line_ids post) ->
     split_line line = Ok (audio_id, raw) ->
     stored_translated (data ds) audio_id = Some (decode raw))
  /\ (forall pre line post raw,
        file_lines fs (text_path path is_train) = pre ++ line :: post ->
        ~ In audio_id (line_ids post) ->
        split_line line = Ok (audio_id, raw) ->
        stored_text (data ds) audio_id = Some (decode raw)).
Proof.
  intro Hinit. split; intros pre line post raw Hl Hp Hs.
  - exact (stored_translated_last _ _ _ _ _ _ _ _ _ Hinit Hl Hp Hs).
  - exact (stored_text_last _ _ _ _ _ _ _ _ _ Hinit Hl Hp Hs).
Qed.

(** X4.  In a dataset that was built, the record of an identifier has a
    ['text'] exactly when the identifier occurs in the transcript file. *)
Theorem text_present_iff_transcribed (fs : FS) (path : str)
    (is_train : bool) (ds : CustomDataset) (audio_id : str) :
  CustomDataset_init fs path is_train = Ok ds ->
  (stored_text (data ds) audio_id <> None
   <-> In audio_id (file_ids fs (text_path path is_train))).
Proof. intro Hinit. exact (init_text_present _ _ _ _ _ Hinit). Qed.

End DatasetMore.

(** ** Indexing *)

Lemma list_index_wrap {A : Type} (l : list A) (idx : Z) :
  (- Z.of_nat (List.length l) <= idx < 0)%Z ->
  list_index l idx = list_index l (idx + Z.of_nat (List.length l)).
Proof.
  intro H. unfold list_index.
  replace (idx <? 0)%Z with true by (symmetry; apply Z.ltb_lt; lia).
  replace (idx + Z.of_nat (List.length l) <? 0)%Z with false
    by (symmetry; apply Z.ltb_ge; lia).
  reflexivity.
Qed.

Lemma list_index_out {A : Type} (l : list A) (idx : Z) :
  (Z.of_nat (List.length l) <= idx \/ idx < - Z.of_nat (List.length l))%Z ->
  list_index l idx = Raise IndexError.
Proof.
  intro H. unfold list_index.
  destruct (Z.ltb_spec idx 0) as [Hneg | Hpos].
  - replace (0 <=? idx + Z.of_nat (List.length l))%Z with false
      by (symmetry; apply Z.leb_gt; lia).
    reflexivity.
  - replace (idx <? Z.of_nat (List.length l))%Z with false
      by (symmetry; apply Z.ltb_ge; lia).
    rewrite andb_false_r. reflexivity.
Qed.

Lemma list_index_ok_in {A : Type} (l : list A) (idx : Z) (x : A) :
  list_index l idx = Ok x -> In x l.
Proof.
  unfold list_index.
  destruct ((0 <=? _) && (_ <? _))%Z; [| discriminate].
  destruct (nth_error l _) as [a |] eqn:E; [| discriminate].
  intro H. injection H as <-. exact (nth_error_In _ _ E).
Qed.

Section DatasetIndexing.

Context {io : KaldiIO}.

Lemma getitem_at (ds : CustomDataset) (idx : Z) (k : str) (e : Entry) :
  list_index (keys ds) idx = Ok k ->
  dict_get (data ds) k = Some e ->
  snd (CustomDataset_getitem ds idx)
  = (a <- loader_getitem (loader ds) k ;;
     speech <- astype_float32 a ;;
     match text e with
     | Some tx =>
         Ok {| item_speech := speech;
               item_text := tx;
               item_translated := translated e |}
     | None => Raise KeyError
     end).
Proof.
  intros Hidx Hget. unfold CustomDataset_getitem, data_field. cbn [snd].
  rewrite Hidx. cbn [bind]. rewrite Hget.
  destruct (loader_getitem (loader ds) k) as [a | e1]; [| reflexivity].
  cbn [bind]. destruct (astype_float32 a) as [sp | e2]; [| reflexivity].
  cbn [bind]. destruct (text e); reflexivity.
Qed.

(** X5.  A negative index counts from the end: for [idx] from [-len] to
    [-1], [__getitem__] answers at [idx] what it answers at
    [idx + len]. *)
Theorem getitem_negative_index (ds : CustomDataset) (idx : Z) :
  (- snd (CustomDataset_len ds) <= idx < 0)%Z ->
  snd (CustomDataset_getitem ds idx)
  = snd (CustomDataset_getitem ds (idx + snd (CustomDataset_len ds))).
Proof.
  unfold CustomDataset_len. cbn [snd]. intro H.
  unfold CustomDataset_getitem, data_field. cbn [snd].
  rewrite (list_index_wrap _ _ H). reflexivity.
Qed.

(** X6.  An index at or beyond the length, or below minus the length,
    raises [IndexError], whatever the loader and the records are. *)
Theorem getitem_out_of_range (ds : CustomDataset) (idx : Z) :
  (snd (CustomDataset_len ds) <= idx \/ idx < - snd (CustomDataset_len ds))%Z ->
  snd (CustomDataset_getitem ds idx) = Raise IndexError.
Proof.
  unfold CustomDataset_len. cbn [snd]. intro H.
  unfold CustomDataset_getitem. cbn [snd].
  rewrite (list_index_out _ _ H). reflexivity.
Qed.

(** X7.  In a dataset that was built, at the index of an identifier that
    the transcript file has, [__getitem__] fails only if the loader does:
    it returns the waveform of the loader with the stored ['text'] and
    ['translated'] of that identifier. *)
Theorem getitem_of_transcribed (fs : FS) (path : str) (is_train : bool)
    (ds : CustomDataset) (idx : Z) (audio_id : str) :
  CustomDataset_init fs path is_train = Ok ds ->
  list_index (keys ds) idx = Ok audio_id ->
  In audio_id (file_ids fs (text_path path is_train)) ->
  exists tx tr,
    stored_text (data ds) audio_id = Some tx
    /\ stored_translated (data ds) audio_id = Some tr
    /\ snd (CustomDataset_getitem ds idx)
       = (a <- loader_getitem (loader ds) audio_id ;;
          speech <- astype_float32 a ;;
          Ok {| item_speech := speech;
                item_text := tx;
                item_translated := tr |}).
Proof.
  intros Hinit Hidx Hin.
  pose proof (list_index_ok_in _ _ _ Hidx) as Hk.
  rewrite (init_keys _ _ _ _ Hinit) in Hk. apply dict_get_in_keys in Hk.
  destruct (dict_get (data ds) audio_id) as [e |] eqn:G; [| congruence].
  apply (init_text_present _ _ _ _ audio_id Hinit) in Hin.
  unfold stored_text in Hin. rewrite G in Hin.
  destruct (text e) as [tx |] eqn:T; [| congruence].
  exists tx, (translated e). unfold stored_text, stored_translated.
  rewrite G. cbn [option_map]. repeat split; [exact T |].
  rewrite (getitem_at _ _ _ _ Hidx G), T. reflexivity.
Qed.

End DatasetIndexing.

(** ** The two splits *)

Lemma split_paths_apart (path : str) (b : bool) :
  text_tc_de_path path b <> text_tc_de_path path (negb b)
  /\ text_tc_de_path path b <> text_path path (negb b)
  /\ text_path path b <> text_tc_de_path path (negb b)
  /\ text_path path b <> text_path path (negb b).
Proof.
  unfold text_tc_de_path, text_path, split_dir.
  destruct b; cbn [negb]; repeat split; intro H;
    rewrite <- !app_assoc in H; apply app_inv_head in H;
    vm_compute in H; discriminate H.
Qed.

Section DatasetSplits.

Context {io : KaldiIO}.

(** X8.  The dataset of one split does not read the text files of the
    other: two file systems that differ at most in [text.tc.de] and [text]
    of the other split give the same construction. *)
Theorem other_split_not_read (fs fs' : FS) (path : str) (is_train : bool) :
  (forall q,
     q <> text_tc_de_path path (negb is_train) ->
     q <> text_path path (negb is_train) ->
     fs q = fs' q) ->
  CustomDataset_init fs path is_train = CustomDataset_init fs' path is_train.
Proof.
  intro H. destruct (split_paths_apart path is_train) as [A [B [C D]]].
  unfold CustomDataset_init, open.
  rewrite (H _ A B), (H _ C D). reflexivity.
Qed.

End DatasetSplits.

(** ** What a parsed line looks like *)

Lemma lstrip_decomp (s : str) :
  exists w, blank w = true /\ s = w ++ lstrip s.
Proof.
  induction s as [| c s [w [Hw Hs]]].
  - exists []. split; reflexivity.
  - simpl. destruct (isspace c) eqn:E.
    + exists (c :: w). simpl. rewrite E, Hw. split; [reflexivity |].
      f_equal. exact Hs.
    + exists []. split; reflexivity.
Qed.

Lemma lstrip_nonspace (s : str) (c : char) (r : str) :
  lstrip s = c :: r -> isspace c = false.
Proof.
  induction s as [| c0 s IH]; simpl; [discriminate |].
  destruct (isspace c0) eqn:E; [exact IH |].
  intro H. injection H as <- _. exact E.
Qed.

Lemma lstrip_idem (s : str) : lstrip (lstrip s) = lstrip s.
Proof.
  destruct (lstrip s) as [| c r] eqn:E; [reflexivity |].
  apply lstrip_head. exact (lstrip_nonspace _ _ _ E).
Qed.

Lemma span_word_decomp (t : str) :
  forall w rest, span_word t = (w, rest) ->
    t = w ++ rest
    /\ forallb (fun c => negb (isspace c)) w = true
    /\ match rest with [] => True | c :: _ => isspace c = true end.
Proof.
  induction t as [| c t IH]; intros w rest H; simpl in H.
  - injection H as <- <-. repeat split.
  - destruct (isspace c) eqn:E.
    + injection H as <- <-. repeat split. exact E.
    + destruct (span_word t) as [w' r']. injection H as <- <-.
      destruct (IH _ _ eq_refl) as [Ht [Hw Hr]].
      repeat split; [simpl; f_equal; exact Ht | simpl; rewrite E; exact Hw | exact Hr].
Qed.

Lemma rstrip_decomp (t : str) :
  exists w, blank w = true /\ t = rstrip t ++ w.
Proof.
  destruct (lstrip_decomp (rev t)) as [w [Hw Ht]].
  exists (rev w). split; [apply blank_rev; exact Hw |].
  unfold rstrip. rewrite <- rev_app_distr, <- Ht. symmetry. apply rev_involutive.
Qed.

Lemma last_of_suffix (u raw : str) (d d' : char) :
  raw <> [] -> last (u ++ raw) d = last raw d'.
Proof.
  intro Hne. induction u as [| x u IH].
  - simpl. clear - Hne. induction raw as [| a raw IH]; [congruence |].
    destruct raw as [| b raw]; [reflexivity |].
    change (last (a :: b :: raw) d) with (last (b :: raw) d).
    change (last (a :: b :: raw) d') with (last (b :: raw) d').
    apply IH. discriminate.
  - cbn [app]. destruct (u ++ raw) eqn:E.
    + destruct u; [simpl in E; congruence | discriminate E].
    + change (last (x :: c :: l) d) with (last (c :: l) d). exact IH.
Qed.

Lemma rstrip_last (t : str) (c : char) (r : str) :
  rstrip t = c :: r -> isspace (last (rstrip t) c) = false.
Proof.
  unfold rstrip. intro H.
  destruct (lstrip (rev t)) as [| c' r'] eqn:E; [discriminate |].
  pose proof (lstrip_nonspace _ _ _ E) as Hc.
  cbn [rev]. rewrite last_last. exact Hc.
Qed.

(** A stripped line is empty or starts and ends without whitespace. *)
Lemma strip_trimmed (line : str) :
  strip line = [] \/ trimmed (strip line) = true.
Proof.
  unfold strip. destruct (lstrip line) as [| c r] eqn:E; [left; reflexivity |].
  right. pose proof (lstrip_nonspace _ _ _ E) as Hc.
  destruct (rstrip_decomp (c :: r)) as [w [Hw Ht]].
  destruct (rstrip (c :: r)) as [| c2 r2] eqn:R.
  - exfalso. simpl in Ht. subst w. simpl in Hw. rewrite Hc in Hw. discriminate.
  - injection Ht as <- _. unfold trimmed.
    rewrite <- R, (rstrip_last _ _ _ R), Hc. reflexivity.
Qed.

Lemma split_line_inv (line audio_id raw : str) :
  split_line line = Ok (audio_id, raw) ->
  word audio_id = true /\ trimmed raw = true
  /\ exists ws, gap ws = true /\ strip line = audio_id ++ ws ++ raw.
Proof.
  unfold split_line, split. intro H.
  destruct (strip_trimmed line) as [E | Hs];
    [rewrite E in H; discriminate H |].
  destruct (strip line) as [| c s] eqn:E; [discriminate |].
  unfold trimmed in Hs. apply andb_prop in Hs. destruct Hs as [Hc Hlast].
  apply negb_true_iff in Hc, Hlast.
  cbn [split_fuel] in H. rewrite lstrip_head in H by exact Hc.
  cbn [option_map Nat.pred List.length split_fuel] in H.
  destruct (span_word (c :: s)) as [w rest] eqn:Sp.
  destruct (span_word_decomp _ _ _ Sp) as [Ht [Hw Hr]].
  destruct (lstrip rest) as [| c' r'] eqn:L; [discriminate |].
  cbn [unpack2] in H. injection H as <- <-.
  pose proof (lstrip_nonspace _ _ _ L) as Hc'.
  destruct (lstrip_decomp rest) as [ws [Hws Hrest]]. rewrite L in Hrest.
  assert (Hwne : w <> []).
  { intros ->. simpl in Ht. subst rest. simpl in Hr. congruence. }
  split; [| split].
  - unfold word. destruct w; [congruence | exact Hw].
  - unfold trimmed. rewrite Hc'. cbn [negb andb].
    rewrite Ht, Hrest in Hlast.
    rewrite app_assoc in Hlast.
    rewrite (last_of_suffix _ (c' :: r') c c') in Hlast by discriminate.
    rewrite Hlast. reflexivity.
  - exists ws. split; [| rewrite Ht, Hrest; reflexivity].
    unfold gap. destruct ws as [| x ws]; [| exact Hws].
    simpl in Hrest. subst rest. congruence.
Qed.

Lemma line_ids_words (lines : list str) :
  Forall (fun k => word k = true) (line_ids lines).
Proof.
  apply Forall_forall. intros k Hk. unfold line_ids in Hk.
  apply in_flat_map in Hk. destruct Hk as [line [_ Hk]].
  unfold parse_line in Hk.
  destruct (split_line line) as [[i x] | e] eqn:E; simpl in Hk; [| destruct Hk].
  destruct Hk as [<- | []]. exact (proj1 (split_line_inv _ _ _ E)).
Qed.

(** X9.  The cut of a line, read backwards: when a line is accepted,
    the identifier is a non-empty string without whitespace, the text is
    not empty and has no whitespace at either end, and the stripped line
    is the identifier, a non-empty run of whitespace and the text. *)
Theorem accepted_line_shape (line audio_id raw : str) :
  split_line line = Ok (audio_id, raw) ->
  word audio_id = true /\ trimmed raw = true
  /\ exists ws, gap ws = true /\ strip line = audio_id ++ ws ++ raw.
Proof. exact (split_line_inv line audio_id raw). Qed.

Section DatasetKeys.

Context {io : KaldiIO}.

(** X10.  Every key of a dataset that was built is a non-empty string
    without whitespace. *)
Theorem keys_are_words (fs : FS) (path : str) (is_train : bool)
    (ds : CustomDataset) :
  CustomDataset_init fs path is_train = Ok ds ->
  Forall (fun k => word k = true) (keys ds).
Proof.
  intro Hinit. rewrite (init_keys _ _ _ _ Hinit).
  apply init_ok in Hinit. destruct Hinit as [d1 [ld [H1 [H2 _]]]].
  apply load_text_keys in H2. destruct H2 as [-> _].
  apply load_translated_keys in H1; [| constructor]. destruct H1 as [_ H1].
  apply Forall_forall. intros k Hk. apply H1 in Hk.
  destruct Hk as [[] | Hk].
  exact (proj1 (Forall_forall _ _) (line_ids_words _) k Hk).
Qed.

End DatasetKeys.

(** ** The decoder shortens *)

Lemma replace_length_le (o : char) (p new : str) :
  (List.length new <= S (List.length p))%nat ->
  forall s, (List.length (replace (o :: p) new s) <= List.length s)%nat.
Proof.
  intros Hnew s. remember (List.length s) as n eqn:Hn. revert s Hn.
  induction n as [n IH] using lt_wf_ind. intros s Hn.
  destruct s as [| c s]; [simpl; lia |].
  rewrite replace_cons.
  destruct (strip_prefix (o :: p) (c :: s)) as [rest |] eqn:E.
  - apply strip_prefix_some in E. rewrite E in Hn.
    rewrite length_app in *. cbn [List.length] in *.
    pose proof (IH (List.length rest) ltac:(lia) rest eq_refl). lia.
  - cbn [List.length] in *.
    pose proof (IH (List.length s) ltac:(lia) s eq_refl). lia.
Qed.

Lemma replace_length_lt (o : char) (p new : str) :
  (List.length new < S (List.length p))%nat ->
  forall s, has_sub (o :: p) s = true ->
    (List.length (replace (o :: p) new s) < List.length s)%nat.
Proof.
  intros Hnew s. induction s as [| c s IH]; intro H.
  - simpl in H. discriminate.
  - cbn [has_sub] in H. rewrite replace_cons.
    destruct (strip_prefix (o :: p) (c :: s)) as [rest |] eqn:E.
    + apply strip_prefix_some in E. rewrite E.
      pose proof (replace_length_le o p new ltac:(lia) rest).
      rewrite !length_app. cbn [List.length]. lia.
    + cbn [List.length]. specialize (IH H). lia.
Qed.

(** X11.  The decoder never lengthens a text, and it changes a text
    exactly when the text holds one of the three escapes with a space
    before it. *)
Theorem decode_changes_iff_escape (x : str) :
  (List.length (decode x) <= List.length x)%nat
  /\ (decode x = x <-> no_spaced_escape x = true).
Proof.
  assert (L1 : forall s, (List.length (replace esc_apos apostrophe s)
                          <= List.length s)%nat)
    by (intro s; escapes; apply replace_length_le; simpl; lia).
  assert (L2 : forall s, (List.length (replace esc_quot dquote s)
                          <= List.length s)%nat)
    by (intro s; escapes; apply replace_length_le; simpl; lia).
  assert (L3 : forall s, (List.length (replace esc_amp ampersand s)
                          <= List.length s)%nat)
    by (intro s; escapes; apply replace_length_le; simpl; lia).
  assert (Hle : (List.length (decode x) <= List.length x)%nat).
  { unfold decode.
    pose proof (L1 x).
    pose proof (L2 (replace esc_apos apostrophe x)).
    pose proof (L3 (replace esc_quot dquote (replace esc_apos apostrophe x))).
    lia. }
  split; [exact Hle |]. split; [| apply decode_verbatim].
  intro Hd. unfold no_spaced_escape.
  assert (Hlen : List.length (decode x) = List.length x) by (rewrite Hd; reflexivity).
  unfold decode in Hlen.
  destruct (has_sub esc_apos x) eqn:H1.
  { exfalso.
    assert ((List.length (replace esc_apos apostrophe x) < List.length x)%nat)
      by (revert H1; escapes; apply replace_length_lt; simpl; lia).
    pose proof (L2 (replace esc_apos apostrophe x)).
    pose proof (L3 (replace esc_quot dquote (replace esc_apos apostrophe x))).
    lia. }
  assert (E1 : replace esc_apos apostrophe x = x)
    by (revert H1; escapes; apply replace_absent).
  rewrite E1 in Hlen.
  destruct (has_sub esc_quot x) eqn:H2.
  { exfalso.
    assert ((List.length (replace esc_quot dquote x) < List.length x)%nat)
      by (revert H2; escapes; apply replace_length_lt; simpl; lia).
    pose proof (L3 (replace esc_quot dquote x)). lia. }
  assert (E2 : replace esc_quot dquote x = x)
    by (revert H2; escapes; apply replace_absent).
  rewrite E2 in Hlen.
  destruct (has_sub esc_amp x) eqn:H3; [| reflexivity].
  exfalso.
  assert ((List.length (replace esc_amp ampersand x) < List.length x)%nat)
    by (revert H3; escapes; apply replace_length_lt; simpl; lia).
  lia.
Qed.

(* ================================================================= *)
(** * Further properties of the model *)

Section ModelRuns.

Context {rt : Runtime} {hub : Hub}.

Lemma forward_failed (self : CustomFinetuneModel)
    (speech : Batch) (sl : Lengths) (text : Labels) (tl : Lengths)
    (kw : Kwargs) (e : exn) :
  forward_loss self speech text = Raise e ->
  forward self speech sl text tl kw = (self, [], Raise e).
Proof. intro H. unfold forward. rewrite H. reflexivity. Qed.

Lemma forward_keeps_log_every (self : CustomFinetuneModel)
    (speech : Batch) (sl : Lengths) (text : Labels) (tl : Lengths)
    (kw : Kwargs) :
  log_every (fst (fst (forward self speech sl text tl kw))) = log_every self.
Proof.
  unfold forward, forward_log.
  destruct (forward_loss self speech text) as [loss | e]; [| reflexivity].
  destruct (log_every self =? 0)%Z; [reflexivity |].
  destruct (_ mod _ =? 0)%Z; reflexivity.
Qed.

Lemma forward_calls_cons_fst (self : CustomFinetuneModel)
    (speech : Batch) (sl : Lengths) (text : Labels) (tl : Lengths)
    (kw : Kwargs) (rest : list (Batch * Lengths * Labels * Lengths * Kwargs)) :
  fst (forward_calls self ((speech, sl, text, tl, kw) :: rest))
  = fst (forward_calls (fst (fst (forward self speech sl text tl kw))) rest).
Proof.
  cbn [forward_calls].
  destruct (forward self speech sl text tl kw) as [[self1 out] r].
  cbn [fst snd].
  destruct (forward_calls self1 rest) as [self2 outs]. reflexivity.
Qed.

(** X13.  With [log_every = 0] a call that computes its loss adds it to
    the accumulator, counts itself, and then raises [ZeroDivisionError]
    at the [%]; whatever the calls, no line is ever printed. *)
Theorem log_every_zero (self : CustomFinetuneModel) :
  log_every self = 0%Z ->
  (forall speech speech_lengths text text_lengths kwargs loss,
     forward_loss self speech text = Ok loss ->
     forward self speech speech_lengths text text_lengths kwargs
     = (set_stats self (float_add (log_stats_loss self) (item loss))
          (iter_count self + 1),
        [], Raise ZeroDivisionError))
  /\ (forall calls, Forall (fun out => out = []) (snd (forward_calls self calls))).
Proof.
  intro H0. split.
  - intros speech sl text tl kw loss Hl. unfold forward, forward_log.
    rewrite Hl, H0. reflexivity.
  - intro calls. revert self H0.
    induction calls as [| c calls IH]; intros self H0; [constructor |].
    destruct c as [[[[speech sl] text] tl] kw].
    rewrite forward_calls_cons. constructor.
    + unfold forward, forward_log.
      destruct (forward_loss self speech text); [| reflexivity].
      rewrite H0. reflexivity.
    + apply IH. rewrite forward_keeps_log_every. exact H0.
Qed.

Lemma expected_log_prefix (N : Z) (h rest : list Float) (i : nat) :
  (S i <= List.length h)%nat ->
  expected_log N (h ++ rest) i = expected_log N h i.
Proof.
  intro H. unfold expected_log. rewrite firstn_app.
  replace (S i - List.length h)%nat with 0%nat by lia.
  cbn [firstn]. rewrite app_nil_r. reflexivity.
Qed.

(** One call that computes a loss, on the model that has accumulated
    [hist]. *)
Lemma forward_after_losses (self : CustomFinetuneModel) (hist : list Float)
    (speech : Batch) (sl : Lengths) (text : Labels) (tl : Lengths)
    (kw : Kwargs) (l : Loss) :
  (0 < log_every self)%Z ->
  forward_loss self speech text = Ok l ->
  fst (forward (after_losses self hist) speech sl text tl kw)
  = (after_losses self (hist ++ [item l]),
     expected_log (log_every self) (hist ++ [item l]) (List.length hist)).
Proof.
  intros HN Hl. unfold after_losses at 1.
  rewrite (forward_step _ _ _ _ _ _ _ _ l Hl HN).
  unfold after_losses, expected_log.
  rewrite length_app. cbn [List.length].
  set (len := List.length hist). set (N := log_every self) in *.
  replace (Z.of_nat (len + 1)) with (Z.of_nat len + 1)%Z by lia.
  replace (Z.of_nat (S len)) with (Z.of_nat len + 1)%Z by lia.
  pose proof (mod_succ (Z.of_nat len) N HN ltac:(lia)) as Hsucc.
  pose proof (Z.mod_pos_bound (Z.of_nat len) N HN) as Hr.
  assert (Hle : (Z.of_nat len mod N <= Z.of_nat len)%Z)
    by (apply Z.mod_le; lia).
  replace (firstn (S len) (hist ++ [item l])) with (hist ++ [item l])
    by (symmetry; apply firstn_all2; rewrite length_app; cbn [List.length];
        change (List.length hist) with len; lia).
  destruct ((Z.of_nat len + 1) mod N =? 0)%Z eqn:E.
  - apply Z.eqb_eq in E. rewrite E. cbn [Z.to_nat]. rewrite recent_all.
    change (float_sum []) with float_zero. f_equal. f_equal. f_equal.
    unfold windowed_mean. f_equal.
    unfold recent. rewrite length_app. cbn [List.length]. fold len.
    destruct (Z.eqb_spec (Z.of_nat len mod N + 1) N) as [EN | EN]; [| lia].
    rewrite skipn_snoc by (change (List.length hist) with len; lia).
    rewrite float_sum_snoc.
    rewrite (window_full len _ N Hr Hle EN). reflexivity.
  - apply Z.eqb_neq in E. f_equal. f_equal.
    destruct (Z.eqb_spec (Z.of_nat len mod N + 1) N) as [EN | EN]; [lia |].
    rewrite Hsucc. unfold recent. rewrite length_app.
    cbn [List.length]. fold len.
    rewrite skipn_snoc by (change (List.length hist) with len; lia).
    rewrite float_sum_snoc.
    rewrite (window_grows len _ N Hr Hle). reflexivity.
Qed.

(** Any calls, some of which may fail, on the model that has accumulated
    [hist]. *)
Lemma forward_calls_run (self : CustomFinetuneModel) :
  (0 < log_every self)%Z ->
  forall calls hist,
    fst (forward_calls (after_losses self hist) calls)
    = after_losses self (hist ++ map item (computed_losses self calls))
    /\ concat (snd (forward_calls (after_losses self hist) calls))
       = concat
           (map (expected_log (log_every self)
                   (hist ++ map item (computed_losses self calls)))
              (seq (List.length hist)
                 (List.length (computed_losses self calls)))).
Proof.
  intro HN. induction calls as [| c calls IH]; intro hist.
  - cbn [forward_calls computed_losses flat_map map fst snd List.length seq concat].
    rewrite app_nil_r. split; reflexivity.
  - destruct c as [[[[speech sl] text] tl] kw].
    rewrite forward_calls_cons, forward_calls_cons_fst.
    cbn [computed_losses flat_map]. fold (computed_losses self calls).
    destruct (forward_loss self speech text) as [l | e] eqn:Hl.
    + rewrite (forward_after_losses _ hist _ sl _ tl kw l HN Hl).
      cbn [fst snd app map List.length seq concat].
      destruct (IH (hist ++ [item l])) as [IH1 IH2].
      rewrite <- app_assoc in IH1, IH2. cbn [app] in IH1, IH2.
      rewrite length_app in IH2. cbn [List.length] in IH2.
      replace (List.length hist + 1)%nat with (S (List.length hist)) in IH2 by lia.
      split; [exact IH1 |]. rewrite IH2. f_equal.
      change (hist ++ item l :: map item (computed_losses self calls))
        with (hist ++ [item l] ++ map item (computed_losses self calls)).
      rewrite app_assoc. symmetry. apply expected_log_prefix.
      rewrite length_app. cbn [List.length]. lia.
    + assert (Hl' : forward_loss (after_losses self hist) speech text = Raise e)
        by exact Hl.
      rewrite (forward_failed _ _ sl _ tl kw _ Hl').
      cbn [fst snd app concat]. apply IH.
Qed.

Lemma init_fresh (nbest beam_size N : Z) (self : CustomFinetuneModel) :
  CustomFinetuneModel_init nbest beam_size N = Ok self ->
  log_every self = N /\ self = after_losses self [].
Proof.
  unfold CustomFinetuneModel_init. intro Hinit.
  destruct (Speech2Text_from_pretrained _ _ _ _) as [asr | e];
    [| discriminate].
  destruct (AutoModelForSeq2SeqLM_from_pretrained _ _) as [m | e];
    [| discriminate].
  destruct (AutoTokenizer_from_pretrained _) as [tk | e]; [| discriminate].
  cbn [bind] in Hinit. injection Hinit as <-. split; reflexivity.
Qed.

(** X14.  On a model built with a positive [log_every = N], whatever
    the calls and whichever of them fail, what gets printed is what the
    calls that computed a loss would print on their own: the [k]-th of
    them prints exactly when [k] is a multiple of [N], the mean of the
    last [N] computed losses. *)
Theorem failed_calls_do_not_count (nbest beam_size N : Z)
    (self : CustomFinetuneModel)
    (calls : list (Batch * Lengths * Labels * Lengths * Kwargs)) :
  (0 < N)%Z ->
  CustomFinetuneModel_init nbest beam_size N = Ok self ->
  concat (snd (forward_calls self calls))
  = concat
      (map (expected_log N (map item (computed_losses self calls)))
         (seq 0 (List.length (computed_losses self calls)))).
Proof.
  intros HN Hinit. destruct (init_fresh _ _ _ _ Hinit) as [HL Hself].
  subst N. rewrite Hself at 1.
  exact (proj2 (forward_calls_run self HN calls [])).
Qed.

(** X15.  On such a model, after any calls, the counter is the number
    [n] of calls that computed a loss (the [NameError] of each call does
    not undo it) and the accumulator is the sum of the last [n mod N] of
    their losses; the models and [log_every] are as they were built. *)
Theorem counters_after_calls (nbest beam_size N : Z)
    (self : CustomFinetuneModel)
    (calls : list (Batch * Lengths * Labels * Lengths * Kwargs)) :
  (0 < N)%Z ->
  CustomFinetuneModel_init nbest beam_size N = Ok self ->
  let losses := map item (computed_losses self calls) in
  let n := Z.of_nat (List.length losses) in
  fst (forward_calls self calls)
  = set_stats self (float_sum (recent (Z.to_nat (n mod N)) losses)) n.
Proof.
  intros HN Hinit. destruct (init_fresh _ _ _ _ Hinit) as [HL Hself].
  subst N. cbv zeta. rewrite Hself at 1.
  exact (proj1 (forward_calls_run self HN calls [])).
Qed.

(** X16.  The model that [build_model_fn] builds prints every 20 calls,
    not every 500 as the default of the constructor would: when all calls
    compute a loss, call number [i + 1] prints exactly when [i + 1] is a
    multiple of 20, the mean of the last 20 losses. *)
Theorem build_model_fn_logs_every_20 (args : PyObject)
    (self : CustomFinetuneModel)
    (calls : list (Batch * Lengths * Labels * Lengths * Kwargs))
    (losses : list Loss) (i : nat) :
  build_model_fn args = Ok self ->
  Forall2 (fun '(speech, _, text, _, _) l =>
             forward_loss self speech text = Ok l) calls losses ->
  (i < List.length calls)%nat ->
  nth i (snd (forward_calls self calls)) []
  = if (Z.of_nat (S i) mod 20 =? 0)%Z then
      [{| log_iter := Z.of_nat (S i);
          log_loss := windowed_mean 20 (firstn (S i) (map item losses)) |}]
    else [].
Proof.
  unfold build_model_fn. intros Hinit HF Hi.
  destruct (init_fresh _ _ _ _ Hinit) as [HL Hself].
  assert (HN : (0 < log_every self)%Z) by lia.
  pose proof (forward_calls_from self HN calls losses [] HF) as H.
  change (set_stats self _ _) with (after_losses self []) in H.
  rewrite <- Hself in H. rewrite H, HL. cbn [List.length app].
  rewrite nth_indep with (d' := expected_log 20 (map item losses) 0%nat)
    by (rewrite length_map, length_seq; exact Hi).
  rewrite (map_nth (expected_log 20 (map item losses))).
  rewrite seq_nth by exact Hi. reflexivity.
Qed.

End ModelRuns.

(* ================================================================= *)
(** * [data_info] and [count_parameters] *)

Section Feeding.

Context {io : KaldiIO} {tok : NumpyTokenizer}.

Lemma init_loader (fs : FS) (path : str) (is_train : bool)
    (ds : CustomDataset) :
  CustomDataset_init fs path is_train = Ok ds ->
  kaldi_loader (wav_scp_path path is_train) = Ok (loader ds).
Proof.
  intro Hinit. apply init_ok in Hinit.
  destruct Hinit as [d1 [ld [_ [_ [Hld ->]]]]]. exact Hld.
Qed.

Lemma init_translated_from (fs : FS) (path : str) (is_train : bool)
    (ds : CustomDataset) :
  CustomDataset_init fs path is_train = Ok ds ->
  exists d1,
    load_translated (file_lines fs (text_tc_de_path path is_train)) [] = Ok d1
    /\ forall k, stored_translated (data ds) k
                 = option_map translated (dict_get d1 k).
Proof.
  intro Hinit. apply init_ok in Hinit.
  destruct Hinit as [d1 [ld [H1 [H2 _]]]].
  exists d1. split; [exact H1 |]. intro k.
  exact (load_text_translated _ k _ _ H2).
Qed.

Lemma feed_at (A : Type) (entry : Item -> result A) (ds : CustomDataset)
    (idx : Z) (k : str) (e : Entry) :
  list_index (keys ds) idx = Ok k ->
  dict_get (data ds) k = Some e ->
  feed entry ds idx
  = (a <- loader_getitem (loader ds) k ;;
     speech <- astype_float32 a ;;
     match text e with
     | Some tx =>
         entry {| item_speech := speech;
                  item_text := tx;
                  item_translated := translated e |}
     | None => Raise KeyError
     end).
Proof.
  intros Hidx Hget. unfold feed. rewrite (getitem_at _ _ _ _ Hidx Hget).
  destruct (loader_getitem (loader ds) k) as [a | e1]; [| reflexivity].
  cbn [bind]. destruct (astype_float32 a) as [sp | e2]; [| reflexivity].
  cbn [bind]. destruct (text e); reflexivity.
Qed.

(** X17.  The transcripts never reach the trainer: the two entries of
    [data_info] read the waveform and the translation only.  Two corpora
    with the same [text.tc.de] whose [text] files have the same
    identifiers, whatever their texts, feed the same speech and the same
    target tokens at every index. *)
Theorem transcript_text_not_fed (fs fs' : FS) (path : str) (is_train : bool)
    (ds ds' : CustomDataset) (idx : Z) :
  fs (text_tc_de_path path is_train) = fs' (text_tc_de_path path is_train) ->
  (forall k, In k (file_ids fs (text_path path is_train))
             <-> In k (file_ids fs' (text_path path is_train))) ->
  CustomDataset_init fs path is_train = Ok ds ->
  CustomDataset_init fs' path is_train = Ok ds' ->
  feed data_info_speech ds idx = feed data_info_speech ds' idx
  /\ feed data_info_text ds idx = feed data_info_text ds' idx.
Proof.
  intros Htc Hids Hinit Hinit'.
  assert (Hlines : file_lines fs (text_tc_de_path path is_train)
                   = file_lines fs' (text_tc_de_path path is_train))
    by (unfold file_lines; rewrite Htc; reflexivity).
  assert (Hkeys : keys ds = keys ds').
  { rewrite (init_key_order _ _ _ _ Hinit), (init_key_order _ _ _ _ Hinit').
    unfold file_ids. rewrite Hlines. reflexivity. }
  assert (Hld : loader ds = loader ds').
  { pose proof (init_loader _ _ _ _ Hinit) as L.
    pose proof (init_loader _ _ _ _ Hinit') as L'. congruence. }
  assert (Htr : forall k, stored_translated (data ds) k
                          = stored_translated (data ds') k).
  { intro k.
    destruct (init_translated_from _ _ _ _ Hinit) as [d1 [H1 T]].
    destruct (init_translated_from _ _ _ _ Hinit') as [d1' [H1' T']].
    rewrite T, T'. rewrite Hlines in H1. congruence. }
  destruct (list_index (keys ds) idx) as [k | e] eqn:Hidx.
  2:{ unfold feed, CustomDataset_getitem. cbn [snd].
      rewrite <- Hkeys, Hidx. split; reflexivity. }
  pose proof Hidx as Hidx'. rewrite Hkeys in Hidx'.
  pose proof (list_index_ok_in _ _ _ Hidx) as Hk.
  pose proof Hk as Hk'. rewrite Hkeys in Hk'.
  rewrite (init_keys _ _ _ _ Hinit) in Hk.
  rewrite (init_keys _ _ _ _ Hinit') in Hk'.
  apply dict_get_in_keys in Hk, Hk'.
  destruct (dict_get (data ds) k) as [e |] eqn:G; [| congruence].
  destruct (dict_get (data ds') k) as [e' |] eqn:G'; [| congruence].
  assert (Et : translated e = translated e').
  { specialize (Htr k). unfold stored_translated in Htr.
    rewrite G, G' in Htr. cbn [option_map] in Htr. congruence. }
  assert (Ex : text e = None <-> text e' = None).
  { pose proof (init_text_present _ _ _ _ k Hinit) as P.
    pose proof (init_text_present _ _ _ _ k Hinit') as P'.
    unfold stored_text in P, P'. rewrite G in P. rewrite G' in P'.
    specialize (Hids k).
    destruct (text e), (text e'); split; intro Hn; try reflexivity;
      try discriminate Hn; exfalso; intuition congruence. }
  rewrite !(feed_at _ _ _ _ _ _ Hidx G), !(feed_at _ _ _ _ _ _ Hidx' G').
  rewrite <- Hld.
  destruct (loader_getitem (loader ds) k) as [a | e1];
    [| split; reflexivity].
  cbn [bind]. destruct (astype_float32 a) as [sp | e2];
    [| split; reflexivity].
  cbn [bind].
  destruct (text e) as [tx |], (text e') as [tx' |].
  - unfold data_info_speech, data_info_text.
    cbn [item_speech item_translated]. rewrite Et. split; reflexivity.
  - exfalso. destruct Ex as [_ Ex]. specialize (Ex eq_refl). discriminate.
  - exfalso. destruct Ex as [Ex _]. specialize (Ex eq_refl). discriminate.
  - split; reflexivity.
Qed.

End Feeding.

Lemma count_parameters_le (ps : list Param) :
  (count_parameters ps <= list_sum (map numel ps))%nat.
Proof.
  unfold count_parameters, list_sum.
  induction ps as [| p ps IH]; [apply Nat.le_refl |].
  cbn [filter map fold_right].
  destruct (requires_grad p); cbn [map fold_right]; lia.
Qed.

(** X18.  [count_parameters] adds up over the parameters in order, takes
    no account of a parameter that does not require a gradient, and never
    exceeds the number of elements of all parameters. *)
Theorem count_parameters_trainable_only (ps qs : list Param) :
  count_parameters (ps ++ qs) = (count_parameters ps + count_parameters qs)%nat
  /\ (forall p, requires_grad p = false ->
        count_parameters (ps ++ p :: qs) = count_parameters (ps ++ qs))
  /\ (count_parameters ps <= list_sum (map numel ps))%nat.
Proof.
  assert (Happ : forall a b,
            count_parameters (a ++ b)
            = (count_parameters a + count_parameters b)%nat).
  { intros a b. unfold count_parameters.
    rewrite filter_app, map_app, list_sum_app. reflexivity. }
  split; [apply Happ | split].
  - intros p Hp. rewrite !Happ. f_equal.
    unfold count_parameters. cbn [filter]. rewrite Hp. reflexivity.
  - apply count_parameters_le.
Qed.

(* ================================================================= *)
(** * The further properties on concrete corpora and models *)

Lemma keys_of_repeated :
  exists ds,
    CustomDataset_init (io := Demo.io) Samples.repeated Demo.dump true = Ok ds
    /\ keys ds = [py "b"; py "a"].
Proof.
  eexists. split; [vm_compute; reflexivity |].
  exact (proj1 (keys_in_first_occurrence_order (io := Demo.io)
                  Samples.repeated Demo.dump true _ eq_refl)).
Defined.

Lemma last_line_wins_repeated :
  exists ds,
    CustomDataset_init (io := Demo.io) Samples.repeated Demo.dump true = Ok ds
    /\ stored_translated (data ds) (py "b") = Some (py "last")
    /\ stored_text (data ds) (py "b") = Some (py "two").
Proof.
  eexists. split; [vm_compute; reflexivity |].
  destruct (last_line_wins (io := Demo.io)
              Samples.repeated Demo.dump true _ (py "b") eq_refl)
    as [Htr Htx].
  split.
  - exact (Htr [Demo.line "b first"; Demo.line "a x"] (Demo.line "b last") []
             (py "last") eq_refl (fun H => H) eq_refl).
  - exact (Htx [Demo.line "a it"; Demo.line "b one"] (Demo.line "b two") []
             (py "two") eq_refl (fun H => H) eq_refl).
Defined.

Lemma text_present_two_one :
  exists ds,
    CustomDataset_init (io := Demo.io) Demo.two_one Demo.dump true = Ok ds
    /\ stored_text (data ds) (py "a") <> None
    /\ ~ stored_text (data ds) (py "b") <> None.
Proof.
  eexists. split; [vm_compute; reflexivity |]. split.
  - apply (proj2 (text_present_iff_transcribed (io := Demo.io)
                    Demo.two_one Demo.dump true _ (py "a") eq_refl)).
    vm_compute. left. reflexivity.
  - intro H.
    apply (proj1 (text_present_iff_transcribed (io := Demo.io)
                    Demo.two_one Demo.dump true _ (py "b") eq_refl)) in H.
    vm_compute in H. destruct H as [H | []]. discriminate H.
Defined.

Lemma getitem_negative_two_one :
  exists ds,
    CustomDataset_init (io := Demo.io) Demo.two_one Demo.dump true = Ok ds
    /\ snd (CustomDataset_getitem ds (-2)) = snd (CustomDataset_getitem ds 0).
Proof.
  eexists. split; [vm_compute; reflexivity |].
  refine (getitem_negative_index (io := Demo.io) _ (-2)%Z
            (conj (fun H => _) eq_refl)).
  vm_compute in H. discriminate H.
Defined.

Lemma getitem_out_of_range_two_one :
  exists ds,
    CustomDataset_init (io := Demo.io) Demo.two_one Demo.dump true = Ok ds
    /\ snd (CustomDataset_getitem ds 2) = Raise IndexError
    /\ snd (CustomDataset_getitem ds (-3)) = Raise IndexError.
Proof.
  eexists. split; [vm_compute; reflexivity |]. split.
  - apply (getitem_out_of_range (io := Demo.io) _ 2%Z).
    left. vm_compute. discriminate.
  - apply (getitem_out_of_range (io := Demo.io) _ (-3)%Z).
    right. vm_compute. reflexivity.
Defined.

Lemma getitem_of_transcribed_two_one :
  exists ds,
    CustomDataset_init (io := Demo.io) Demo.two_one Demo.dump true = Ok ds
    /\ snd (CustomDataset_getitem ds 0)
       = Ok {| item_speech := (py "a" : @Array Demo.io);
               item_text := py "z";
               item_translated := py "x" |}.
Proof.
  eexists. split; [vm_compute; reflexivity |].
  destruct (getitem_of_transcribed (io := Demo.io)
              Demo.two_one Demo.dump true _ 0%Z (py "a") eq_refl eq_refl)
    as [tx [tr [Htx [Htr Hget]]]].
  - vm_compute. left. reflexivity.
  - refine (eq_trans Hget _).
    vm_compute in Htx, Htr. injection Htx as <-. injection Htr as <-.
    reflexivity.
Defined.

Lemma dev_files_not_read_two_one :
  CustomDataset_init (io := Demo.io) Demo.two_one Demo.dump true
  = CustomDataset_init (io := Demo.io) Samples.two_one_with_dev Demo.dump true.
Proof.
  apply (other_split_not_read (io := Demo.io)). intros q H1 H2.
  unfold Demo.two_one, Demo.corpus, Samples.two_one_with_dev. cbn [files].
  destruct (str_eqb (text_tc_de_path Demo.dump true) q); [reflexivity |].
  destruct (str_eqb (text_path Demo.dump true) q); [reflexivity |].
  cbn [negb] in H1, H2.
  rewrite (proj2 (str_eqb_neq _ _) (fun E => H1 (eq_sym E))).
  rewrite (proj2 (str_eqb_neq _ _) (fun E => H2 (eq_sym E))).
  reflexivity.
Defined.

Lemma accepted_line_shape_utt1 :
  word (py "utt1") = true /\ trimmed (py "he is late") = true
  /\ exists ws,
       gap ws = true
       /\ strip (Demo.line "utt1 he is late") = py "utt1" ++ ws ++ py "he is late".
Proof.
  exact (accepted_line_shape (Demo.line "utt1 he is late")
           (py "utt1") (py "he is late") eq_refl).
Defined.

Lemma keys_are_words_utt1 :
  exists ds,
    CustomDataset_init (io := Demo.io) Demo.utt1 Demo.dump true = Ok ds
    /\ Forall (fun k => word k = true) (keys ds).
Proof.
  eexists. split; [vm_compute; reflexivity |].
  exact (keys_are_words (io := Demo.io) Demo.utt1 Demo.dump true _ eq_refl).
Defined.

Lemma log_every_zero_demo :
  exists m,
    CustomFinetuneModel_init (hub := Demo.hub) 5 10 0 = Ok m
    /\ snd (forward m (Demo.batch [0]%Z) tt 7%Z tt tt) = Raise ZeroDivisionError
    /\ iter_count (fst (fst (forward m (Demo.batch [0]%Z) tt 7%Z tt tt))) = 1%Z
    /\ Forall (fun out => out = [])
         (snd (forward_calls m [Demo.call 0 10; Demo.call 0 20])).
Proof.
  eexists. split; [reflexivity |].
  lazymatch goal with
  | |- snd (forward ?m _ _ _ _ _) = _ /\ _ =>
      destruct (log_every_zero (rt := Demo.rt) m eq_refl) as [H1 H2]
  end.
  pose proof (H1 (Demo.batch [0]%Z) tt 7%Z tt tt 7%Z eq_refl) as H.
  split; [exact (f_equal snd H) |].
  split; [exact (f_equal (fun x => iter_count (fst (fst x))) H) |].
  exact (H2 [Demo.call 0 10; Demo.call 0 20]).
Defined.

Lemma failed_calls_do_not_count_demo :
  exists m,
    CustomFinetuneModel_init (hub := Demo.hub) 5 10 2 = Ok m
    /\ concat (snd (forward_calls m
                      [Demo.call 0 10; (Demo.batch [], tt, 5%Z, tt, tt);
                       Demo.call 0 20; Demo.call 0 30]))
       = [{| log_iter := 2%Z; log_loss := (15%Z : @Float Demo.rt) |}].
Proof.
  eexists. split; [reflexivity |].
  exact (failed_calls_do_not_count (hub := Demo.hub) 5 10 2 _
           [Demo.call 0 10; (Demo.batch [], tt, 5%Z, tt, tt);
            Demo.call 0 20; Demo.call 0 30] eq_refl eq_refl).
Defined.

Lemma counters_after_calls_demo :
  exists m,
    CustomFinetuneModel_init (hub := Demo.hub) 5 10 2 = Ok m
    /\ iter_count (fst (forward_calls m
                          [Demo.call 0 10; (Demo.batch [], tt, 5%Z, tt, tt);
                           Demo.call 0 20; Demo.call 0 30])) = 3%Z
    /\ log_stats_loss (fst (forward_calls m
                          [Demo.call 0 10; (Demo.batch [], tt, 5%Z, tt, tt);
                           Demo.call 0 20; Demo.call 0 30])) = 30%Z.
Proof.
  eexists. split; [reflexivity |].
  pose proof (counters_after_calls (hub := Demo.hub) 5 10 2 _
                [Demo.call 0 10; (Demo.batch [], tt, 5%Z, tt, tt);
                 Demo.call 0 20; Demo.call 0 30] eq_refl eq_refl) as H.
  split; [exact (f_equal iter_count H) | exact (f_equal log_stats_loss H)].
Defined.

Lemma build_model_fn_logs_every_20_demo :
  exists m,
    build_model_fn (hub := Demo.hub) tt = Ok m
    /\ nth 19 (snd (forward_calls m (repeat (Demo.call 0 3) 20))) []
       = [{| log_iter := 20%Z; log_loss := (3%Z : @Float Demo.rt) |}]
    /\ nth 18 (snd (forward_calls m (repeat (Demo.call 0 3) 20))) [] = [].
Proof.
  eexists. split; [reflexivity |]. split.
  - refine (build_model_fn_logs_every_20 (hub := Demo.hub) tt _
              (repeat (Demo.call 0 3) 20) (repeat 3%Z 20) 19 eq_refl _ _).
    + cbn [repeat]. repeat constructor.
    + cbn [repeat List.length]. lia.
  - refine (build_model_fn_logs_every_20 (hub := Demo.hub) tt _
              (repeat (Demo.call 0 3) 20) (repeat 3%Z 20) 18 eq_refl _ _).
    + cbn [repeat]. repeat constructor.
    + cbn [repeat List.length]. lia.
Defined.

Lemma transcript_text_not_fed_two_one :
  exists ds ds',
    CustomDataset_init (io := Demo.io) Demo.two_one Demo.dump true = Ok ds
    /\ CustomDataset_init (io := Demo.io) Samples.two_one_reworded Demo.dump true
       = Ok ds'
    /\ snd (CustomDataset_getitem ds 0) <> snd (CustomDataset_getitem ds' 0)
    /\ feed (data_info_text (tok := Samples.tok)) ds 0
       = feed (data_info_text (tok := Samples.tok)) ds' 0
    /\ feed (data_info_text (tok := Samples.tok)) ds 0 = Ok (py "X").
Proof.
  eexists. eexists. split; [vm_compute; reflexivity |].
  split; [vm_compute; reflexivity |].
  split; [vm_compute; discriminate |].
  split; [| vm_compute; reflexivity].
  refine (proj2 (transcript_text_not_fed (io := Demo.io) (tok := Samples.tok)
                   Demo.two_one Samples.two_one_reworded Demo.dump true
                   _ _ 0%Z eq_refl _ eq_refl eq_refl)).
  intro k. vm_compute. tauto.
Defined.

Lemma count_parameters_frozen_skipped :
  count_parameters
    [{| numel := 6; requires_grad := true |};
     {| numel := 100; requires_grad := false |};
     {| numel := 4; requires_grad := true |}] = 10%nat.
Proof.
  refine (eq_trans
            (proj1 (proj2 (count_parameters_trainable_only
                             [{| numel := 6; requires_grad := true |}]
                             [{| numel := 4; requires_grad := true |}]))
               {| numel := 100; requires_grad := false |} eq_refl) _).
  reflexivity.
Defined.

(* ================================================================= *)
(** * Logging, call by call *)

Section CallByCall.

Context {rt : Runtime} {hub : Hub}.

Lemma expected_log_last (N : Z) (h : list Float) (x : Float) :
  expected_log N (h ++ [x]) (List.length h) = line_after N (h ++ [x]).
Proof.
  unfold expected_log, line_after, windowed_mean.
  rewrite firstn_all2 by (rewrite length_app; cbn [List.length]; lia).
  rewrite length_app. cbn [List.length].
  replace (List.length h + 1)%nat with (S (List.length h)) by lia.
  reflexivity.
Qed.

Lemma forward_calls_nth (self : CustomFinetuneModel) :
  (0 < log_every self)%Z ->
  forall calls hist i speech sl text tl kw,
    nth_error calls i = Some (speech, sl, text, tl, kw) ->
    nth i (snd (forward_calls (after_losses self hist) calls)) []
    = match forward_loss self speech text with
      | Raise _ => []
      | Ok _ =>
          line_after (log_every self)
            (hist ++ map item (computed_losses self (firstn (S i) calls)))
      end.
Proof.
  intro HN. induction calls as [| c calls IH];
    intros hist i speech sl text tl kw Hi.
  - destruct i; discriminate Hi.
  - destruct c as [[[[speech0 sl0] text0] tl0] kw0].
    rewrite forward_calls_cons.
    destruct i as [| j].
    + cbn [nth_error] in Hi. injection Hi as -> -> -> -> ->.
      cbn [nth firstn computed_losses flat_map].
      destruct (forward_loss self speech text) as [l | e] eqn:Hl.
      * rewrite (forward_after_losses _ hist _ sl _ tl kw l HN Hl).
        cbn [snd app map]. apply expected_log_last.
      * assert (Hl' : forward_loss (after_losses self hist) speech text
                      = Raise e) by exact Hl.
        rewrite (forward_failed _ _ sl _ tl kw _ Hl'). reflexivity.
    + cbn [nth_error] in Hi. cbn [nth].
      change (firstn (S (S j)) ((speech0, sl0, text0, tl0, kw0) :: calls))
        with ((speech0, sl0, text0, tl0, kw0) :: firstn (S j) calls).
      cbn [computed_losses flat_map].
      fold (computed_losses self (firstn (S j) calls)).
      destruct (forward_loss self speech0 text0) as [l0 | e0] eqn:Hl0.
      * rewrite (forward_after_losses _ hist _ sl0 _ tl0 kw0 l0 HN Hl0).
        cbn [fst].
        rewrite (IH (hist ++ [item l0]) j speech sl text tl kw Hi).
        destruct (forward_loss self speech text); [| reflexivity].
        rewrite <- app_assoc. reflexivity.
      * assert (Hl' : forward_loss (after_losses self hist) speech0 text0
                      = Raise e0) by exact Hl0.
        rewrite (forward_failed _ _ sl0 _ tl0 kw0 _ Hl'). cbn [fst].
        rewrite (IH hist j speech sl text tl kw Hi). reflexivity.
Qed.

(** C7, as amended.  On a model built with a positive [log_every = N],
    whatever the calls made, a call prints a line exactly when it computes
    a loss and the number [k] of calls that have computed one so far, it
    included, is a multiple of [N] (a call that fails before the
    accumulation is not counted and prints nothing).  The line shows [k]
    and the mean of the [N] most recent computed losses: their sum, added
    up from zero in call order, divided by [N]. *)
Theorem log_line_per_computed_loss (nbest beam_size N : Z)
    (self : CustomFinetuneModel)
    (calls : list (Batch * Lengths * Labels * Lengths * Kwargs)) (i : nat)
    (speech : Batch) (speech_lengths : Lengths)
    (text : Labels) (text_lengths : Lengths) (kwargs : Kwargs) :
  (0 < N)%Z ->
  CustomFinetuneModel_init nbest beam_size N = Ok self ->
  nth_error calls i = Some (speech, speech_lengths, text, text_lengths, kwargs) ->
  let losses := map item (computed_losses self (firstn (S i) calls)) in
  let k := Z.of_nat (List.length losses) in
  nth i (snd (forward_calls self calls)) []
  = match forward_loss self speech text with
    | Raise _ => []
    | Ok _ =>
        if (k mod N =? 0)%Z then
          [{| log_iter := k;
              log_loss := float_div (float_sum (recent (Z.to_nat N) losses)) N |}]
        else []
    end.
Proof.
  intros HN Hinit Hi. destruct (init_fresh _ _ _ _ Hinit) as [HL Hself].
  subst N. cbv zeta. rewrite Hself at 1.
  rewrite (forward_calls_nth self HN calls [] i _ _ _ _ _ Hi).
  reflexivity.
Qed.

End CallByCall.

(** C7, as it is stated, fails.  With [log_every = 2] and a second call on
    an empty batch, nothing is printed at call 2 and a line is printed at
    call 3; with [log_every = -2] the line of call 2 shows the mean with
    its sign changed. *)
Lemma log_miscounts_failed_calls :
  exists m m',
    CustomFinetuneModel_init (hub := Demo.hub) 5 10 2 = Ok m
    /\ nth 1 (snd (forward_calls m
                     [Demo.call 0 10; (Demo.batch [], tt, 5%Z, tt, tt);
                      Demo.call 0 20])) [] = []
    /\ nth 2 (snd (forward_calls m
                     [Demo.call 0 10; (Demo.batch [], tt, 5%Z, tt, tt);
                      Demo.call 0 20])) []
       = [{| log_iter := 2%Z; log_loss := (15%Z : @Float Demo.rt) |}]
    /\ CustomFinetuneModel_init (hub := Demo.hub) 5 10 (-2) = Ok m'
    /\ nth 1 (snd (forward_calls m' [Demo.call 0 10; Demo.call 0 20])) []
       = [{| log_iter := 2%Z; log_loss := ((-15)%Z : @Float Demo.rt) |}].
Proof.
  eexists. eexists. split; [reflexivity |].
  split; [reflexivity |]. split; [reflexivity |].
  split; reflexivity.
Qed.

Lemma log_line_per_computed_loss_demo :
  exists m,
    CustomFinetuneModel_init (hub := Demo.hub) 5 10 2 = Ok m
    /\ nth 1 (snd (forward_calls m
                     [Demo.call 0 10; (Demo.batch [], tt, 5%Z, tt, tt);
                      Demo.call 0 20; Demo.call 0 30])) [] = []
    /\ nth 2 (snd (forward_calls m
                     [Demo.call 0 10; (Demo.batch [], tt, 5%Z, tt, tt);
                      Demo.call 0 20; Demo.call 0 30])) []
       = [{| log_iter := 2%Z; log_loss := (15%Z : @Float Demo.rt) |}]
    /\ nth 3 (snd (forward_calls m
                     [Demo.call 0 10; (Demo.batch [], tt, 5%Z, tt, tt);
                      Demo.call 0 20; Demo.call 0 30])) [] = [].
Proof.
  eexists. split; [reflexivity |]. split; [| split].
  - exact (log_line_per_computed_loss (hub := Demo.hub) 5 10 2 _
             [Demo.call 0 10; (Demo.batch [], tt, 5%Z, tt, tt);
              Demo.call 0 20; Demo.call 0 30] 1
             (Demo.batch []) tt 5%Z tt tt eq_refl eq_refl eq_refl).
  - exact (log_line_per_computed_loss (hub := Demo.hub) 5 10 2 _
             [Demo.call 0 10; (Demo.batch [], tt, 5%Z, tt, tt);
              Demo.call 0 20; Demo.call 0 30] 2
             (Demo.batch [0%Z]) tt 20%Z tt tt eq_refl eq_refl eq_refl).
  - exact (log_line_per_computed_loss (hub := Demo.hub) 5 10 2 _
             [Demo.call 0 10; (Demo.batch [], tt, 5%Z, tt, tt);
              Demo.call 0 20; Demo.call 0 30] 3
             (Demo.batch [0%Z]) tt 30%Z tt tt eq_refl eq_refl eq_refl).
Defined.

(* ================================================================= *)
(** * The record of a line among others *)

Section RecordsAmongOthers.

Context {io : KaldiIO}.

Lemma plain_line_split (audio_id ws x ws' : str) :
  plain_line audio_id ws x ws' = true ->
  split_line (audio_id ++ ws ++ x ++ ws') = Ok (audio_id, x)
  /\ decode x = x.
Proof.
  unfold plain_line. intro H.
  repeat (apply andb_prop in H; let H' := fresh "H" in destruct H as [H H']).
  split; [apply split_line_fields; assumption | apply decode_verbatim; assumption].
Qed.

(** C8, as amended.  In a dataset built from a translation file and a
    transcript file that hold, each as the last line of its identifier, a
    line made of the identifier, whitespace and a text (neither text
    holding an escape to decode), the record of the identifier has the
    text of the translation line verbatim in ['translated'] and that of
    the transcript line verbatim in ['text']; the identifier has an index,
    and [__getitem__] at it returns the two texts with the waveform of the
    loader. *)
Theorem record_of_last_lines (fs : FS) (path : str) (is_train : bool)
    (ds : CustomDataset) (pre1 post1 pre2 post2 : list str)
    (audio_id ws1 tr ws1' ws2 tx ws2' : str) :
  CustomDataset_init fs path is_train = Ok ds ->
  file_lines fs (text_tc_de_path path is_train)
    = pre1 ++ (audio_id ++ ws1 ++ tr ++ ws1') :: post1 ->
  ~ In audio_id (line_ids post1) ->
  file_lines fs (text_path path is_train)
    = pre2 ++ (audio_id ++ ws2 ++ tx ++ ws2') :: post2 ->
  ~ In audio_id (line_ids post2) ->
  plain_line audio_id ws1 tr ws1' = true ->
  plain_line audio_id ws2 tx ws2' = true ->
  stored_translated (data ds) audio_id = Some tr
  /\ stored_text (data ds) audio_id = Some tx
  /\ (exists idx, list_index (keys ds) idx = Ok audio_id)
  /\ forall idx,
       list_index (keys ds) idx = Ok audio_id ->
       snd (CustomDataset_getitem ds idx)
       = (a <- loader_getitem (loader ds) audio_id ;;
          speech <- astype_float32 a ;;
          Ok {| item_speech := speech;
                item_text := tx;
                item_translated := tr |}).
Proof.
  intros Hinit F1 L1 F2 L2 P1 P2.
  destruct (plain_line_split _ _ _ _ P1) as [S1 D1].
  destruct (plain_line_split _ _ _ _ P2) as [S2 D2].
  pose proof (stored_translated_last _ _ _ _ _ _ _ _ _ Hinit F1 L1 S1) as Htr.
  pose proof (stored_text_last _ _ _ _ _ _ _ _ _ Hinit F2 L2 S2) as Htx.
  rewrite D1 in Htr. rewrite D2 in Htx.
  unfold stored_translated, stored_text in *.
  destruct (dict_get (data ds) audio_id) as [e |] eqn:G; [| discriminate].
  cbn [option_map] in Htr |- *. injection Htr as Htr.
  split; [rewrite Htr; reflexivity |]. split; [exact Htx |]. split.
  - apply list_index_in. rewrite (init_keys _ _ _ _ Hinit).
    apply dict_get_in_keys. congruence.
  - intros idx Hidx. rewrite (getitem_at _ _ _ _ Hidx G), Htx, Htr.
    reflexivity.
Qed.

End RecordsAmongOthers.

(** C8, as it is stated, fails: the translation file holds the line of
    the specification, and a later line of [utt1] is what gets stored. *)
Lemma later_line_overrides :
  exists ds,
    CustomDataset_init (io := Demo.io) Samples.utt1_overridden Demo.dump true
    = Ok ds
    /\ In (py "utt1 " ++ Demo.er_ist_spaet ++ [NL])
          (file_lines Samples.utt1_overridden (text_tc_de_path Demo.dump true))
    /\ In (Demo.line "utt1 he is late")
          (file_lines Samples.utt1_overridden (text_path Demo.dump true))
    /\ stored_translated (data ds) (py "utt1") = Some (py "Er kommt.")
    /\ stored_translated (data ds) (py "utt1") <> Some Demo.er_ist_spaet.
Proof.
  eexists. split; [vm_compute; reflexivity |].
  split; [vm_compute; left; reflexivity |].
  split; [vm_compute; left; reflexivity |].
  split; [vm_compute; reflexivity |].
  vm_compute. discriminate.
Qed.

Lemma record_of_utt1_among :
  exists ds,
    CustomDataset_init (io := Demo.io) Samples.utt1_among Demo.dump true = Ok ds
    /\ stored_translated (data ds) (py "utt1") = Some Demo.er_ist_spaet
    /\ stored_text (data ds) (py "utt1") = Some (py "he is late")
    /\ snd (CustomDataset_getitem ds 1)
       = Ok {| item_speech := (py "utt1" : @Array Demo.io);
               item_text := py "he is late";
               item_translated := Demo.er_ist_spaet |}.
Proof.
  eexists. split; [vm_compute; reflexivity |].
  assert (L1 : ~ In (py "utt1") (line_ids [Demo.line "utt2 Ja"]))
    by (vm_compute; intros [H | []]; discriminate H).
  assert (L2 : ~ In (py "utt1") (line_ids [Demo.line "utt2 yes"]))
    by (vm_compute; intros [H | []]; discriminate H).
  destruct (record_of_last_lines (io := Demo.io)
              Samples.utt1_among Demo.dump true _
              [Demo.line "utt0 Hallo"] [Demo.line "utt2 Ja"]
              [Demo.line "utt0 hello"] [Demo.line "utt2 yes"]
              (py "utt1") [SP] Demo.er_ist_spaet [NL]
              [SP] (py "he is late") [NL]
              eq_refl eq_refl L1 eq_refl L2 eq_refl eq_refl)
    as [Htr [Htx [_ Hget]]].
  split; [exact Htr |]. split; [exact Htx |].
  exact (Hget 1%Z eq_refl).
Defined.

(* ================================================================= *)
(** * The dataset under accesses, with the loader's state *)

Section StatefulProperties.

Context {io : KaldiIO} {ls : LoaderState}.

(** The answers are those of the method without the loader's state. *)
Lemma getitem_stateful_answer (ds : CustomDataset) (idx : Z) :
  snd (getitem_stateful ds idx) = snd (CustomDataset_getitem ds idx).
Proof. reflexivity. Qed.

Lemma access_stateful_frame (ds : CustomDataset) (a : Access) :
  data (fst (access_stateful ds a)) = data ds
  /\ keys (fst (access_stateful ds a)) = keys ds
  /\ data_path (fst (access_stateful ds a)) = data_path ds.
Proof.
  destruct a as [| idx]; [repeat split |].
  unfold access_stateful, getitem_stateful.
  destruct (list_index (keys ds) idx); repeat split.
Qed.

Lemma accesses_stateful_cons (ds : CustomDataset) (a : Access)
    (l : list Access) :
  fst (accesses_stateful ds (a :: l))
  = fst (accesses_stateful (fst (access_stateful ds a)) l).
Proof.
  cbn [accesses_stateful].
  destruct (access_stateful ds a) as [s1 x]. cbn [fst].
  destruct (accesses_stateful s1 l) as [s2 xs]. reflexivity.
Qed.

Lemma accesses_stateful_frame (calls : list Access) :
  forall ds,
    data (fst (accesses_stateful ds calls)) = data ds
    /\ keys (fst (accesses_stateful ds calls)) = keys ds
    /\ data_path (fst (accesses_stateful ds calls)) = data_path ds.
Proof.
  induction calls as [| a rest IH]; intro ds; [repeat split |].
  rewrite accesses_stateful_cons.
  destruct (IH (fst (access_stateful ds a))) as [H1 [H2 H3]].
  destruct (access_stateful_frame ds a) as [A1 [A2 A3]].
  repeat split; congruence.
Qed.

Lemma accesses_stateful_read_only (calls : list Access) :
  forall ds,
    (forall k, In k (keys ds) -> loader_after (loader ds) k = loader ds) ->
    fst (accesses_stateful ds calls) = ds.
Proof.
  induction calls as [| a rest IH]; intros ds Hro; [reflexivity |].
  rewrite accesses_stateful_cons.
  assert (Ha : fst (access_stateful ds a) = ds).
  { destruct a as [| idx]; [reflexivity |].
    unfold access_stateful, getitem_stateful.
    destruct (list_index (keys ds) idx) as [k | e] eqn:E; [| reflexivity].
    cbn [fst]. unfold with_loader.
    rewrite (Hro k (list_index_ok_in _ _ _ E)). destruct ds. reflexivity. }
  rewrite Ha. apply IH. exact Hro.
Qed.

Lemma data_field_frame (ds ds' : CustomDataset) (idx : Z)
    (field : Entry -> option str) :
  data ds' = data ds -> keys ds' = keys ds ->
  data_field ds' idx field = data_field ds idx field.
Proof. intros Hd Hk. unfold data_field. rewrite Hd, Hk. reflexivity. Qed.

Lemma getitem_fields (ds : CustomDataset) (idx : Z) (d : Item) :
  snd (CustomDataset_getitem ds idx) = Ok d ->
  data_field ds idx text = Ok (item_text d)
  /\ data_field ds idx (fun e => Some (translated e)) = Ok (item_translated d).
Proof.
  unfold CustomDataset_getitem. cbn [snd].
  destruct (list_index (keys ds) idx) as [k | e]; [| discriminate].
  cbn [bind].
  destruct (loader_getitem (loader ds) k) as [a | e]; [| discriminate].
  cbn [bind]. destruct (astype_float32 a) as [sp | e]; [| discriminate].
  cbn [bind].
  destruct (data_field ds idx text) as [tx | e]; [| discriminate].
  cbn [bind].
  destruct (data_field ds idx (fun e => Some (translated e))) as [tr | e];
    [| discriminate].
  cbn [bind]. intro H. injection H as <-. split; reflexivity.
Qed.


End StatefulProperties.


